(** * type-utilities-lib: the retry helper and the Cache decorator

    A shallow embedding of the two pieces of the library that have run-time
    behaviour:

    - [Retry.retry]    from [src/utils/index.ts]       (lines 9-23),
    - [Memo.descriptor_value], [Memo.Cache] from [src/decorators/index.ts]
      (lines 60-85),

    together with the fragment of [JSON.stringify] that the cache key is
    built with.

    Conventions.  JavaScript numbers that the code uses as counters and
    timestamps ([retries], [i], [delay], [ttl], [Date.now()]) are integers
    [Z]: [retries] is a number of attempts (the specification declares it
    a positive integer) and the others are milliseconds.  A thrown value
    is represented by its string rendering (what [`${error}`] yields).
    Effects are explicit: every function takes the world it runs in and
    returns the world it leaves; [retry] also returns the trace of what it
    did, and a cached method logs the invocations of the original
    method. *)

From Stdlib Require Import ZArith Lia List Ascii String.
From stdpp Require Import base option list strings pretty gmap.
Import ListNotations.

Local Open Scope Z_scope.

(** ** Settled promises and completions *)

(** What awaiting a promise yields: its value, or the reason it was
    rejected with (rendered as a string). *)
Inductive settled (T : Type) : Type :=
| Fulfilled (v : T)
| Rejected (reason : string).
Arguments Fulfilled {T} v.
Arguments Rejected {T} reason.

(** How a call ends: [return v] or [throw new Error(msg)] (for an [async]
    function: the promise it returns is fulfilled or rejected). *)
Inductive completion (T : Type) : Type :=
| Return (v : T)
| Throw (msg : string).
Arguments Return {T} v.
Arguments Throw {T} msg.

(** ** retry *)

Module Retry.

(** What a run of [retry] does that an observer can see: it invokes [fn]
    (attempt number [i], counted from 0 as the loop variable is) and it
    waits on [setTimeout(resolve, ms)]. *)
Inductive event : Type :=
| Attempt (i : Z)
| Wait (ms : Z).

Definition is_attempt (e : event) : bool :=
  match e with Attempt _ => true | Wait _ => false end.

(** Number of invocations of [fn] in a trace. *)
Definition calls (tr : list event) : nat := length (List.filter is_attempt tr).

(** The message of the error after the loop (line 22). *)
Definition internal_message : string := "Falha inesperada no retry".

(** The message of the error thrown when the last attempt fails (line 18). *)
Definition wrap (error : string) : string := "[ERROR]: " +:+ error.

Section WithOperation.

Context {T W : Type}.

(** [await fn()] in world [w]: how the promise settles, and the world
    afterwards. *)
Variable fn : W -> settled T * W.

(** [await new Promise(resolve => setTimeout(resolve, ms))]. *)
Variable sleep : Z -> W -> W.

Variables retries delay : Z.

(** The [for] loop of lines 14-21, entered with loop variable [i] in
    world [w].  [fuel] bounds the number of iterations; [None] means the
    bound was too small. *)
Fixpoint retry_loop (fuel : nat) (i : Z) (w : W)
  : option (completion T * W * list event) :=
  if i <? retries then
    match fuel with
    | O => None
    | S fuel' =>
        match fn w with
        | (Fulfilled v, w1) => Some (Return v, w1, [Attempt i])
        | (Rejected error, w1) =>
            if i =? retries - 1 then
              Some (Throw (wrap error), w1, [Attempt i])
            else
              match retry_loop fuel' (i + 1) (sleep delay w1) with
              | Some (c, w2, tr) => Some (c, w2, Attempt i :: Wait delay :: tr)
              | None => None
              end
        end
    end
  else Some (Throw internal_message, w, []).

(** [retry(fn, retries, delay)].  The loop runs at most [retries] times. *)
Definition retry (w : W) : option (completion T * W * list event) :=
  retry_loop (Z.to_nat retries) 0 w.

(** The world in which attempt number [j] (counted from 0) starts when
    all earlier attempts were followed by a wait. *)
Fixpoint world_before (j : nat) (w : W) : W :=
  match j with
  | O => w
  | S j' => sleep delay (snd (fn (world_before j' w)))
  end.

(** How the [k]-th invocation of [fn] (counted from 1) settles. *)
Definition attempt_result (k : nat) (w : W) : settled T :=
  fst (fn (world_before (Nat.pred k) w)).

(** The world right after the [k]-th invocation (counted from 1). *)
Definition world_after (k : nat) (w : W) : W :=
  snd (fn (world_before (Nat.pred k) w)).

(** The [k]-th invocation (counted from 1) fails. *)
Definition fails (k : nat) (w : W) : Prop :=
  exists error, attempt_result k w = Rejected error.

(** The trace of [n] attempts numbered from [i], separated by waits, with
    no wait after the last one. *)
Fixpoint schedule (n : nat) (i : Z) : list event :=
  match n with
  | O => []
  | S O => [Attempt i]
  | S n' => Attempt i :: Wait delay :: schedule n' (i + 1)
  end.

(** What one run of the loop amounts to: [S n] attempts were made, the
    first [n] failed, and the last one either succeeded or was the last
    one allowed. *)
Definition loop_outcome (i : Z) (w : W)
    (res : completion T * W * list event) : Prop :=
  exists n : nat,
    snd res = schedule (S n) i /\
    snd (fst res) = snd (fn (world_before n w)) /\
    i + Z.of_nat n < retries /\
    (forall j, (j < n)%nat -> exists e, fst (fn (world_before j w)) = Rejected e) /\
    ((exists v, fst (fst res) = Return v /\
                fst (fn (world_before n w)) = Fulfilled v) \/
     (exists e, fst (fst res) = Throw (wrap e) /\
                fst (fn (world_before n w)) = Rejected e /\
                i + Z.of_nat n = retries - 1)).

End WithOperation.

(** A scripted operation, as a jest mock is: the world is the number of
    calls made so far and the script says how each call settles. *)
Definition scripted {T} (script : nat -> settled T) (n : nat) : settled T * nat :=
  (script n, S n).

(** Waiting does not change how a scripted operation settles. *)
Definition no_sleep (ms : Z) (n : nat) : nat := n.

End Retry.

(** ** JSON values and JSON.stringify *)

Module Json.

(** The argument structures the cache key is computed from.  An object is
    the list of its fields in insertion order, which is the order
    [JSON.stringify] enumerates them in (keys that are not array indices).
    Numbers are the integers, which print in plain decimal notation. *)
#[warnings="-register-all"] Inductive json : Type :=
| JNull
| JBool (b : bool)
| JNum (n : Z)
| JStr (s : string)
| JArr (items : list json)
| JObj (fields : list (string * json)).

Definition dquote : ascii := "034"%char.
Definition backslash : ascii := "092"%char.

Definition hex_digit (n : N) : ascii :=
  ascii_of_N (if (n <? 10)%N then 48 + n else 87 + n)%N.

(** One character of QuoteJSONString: the two-character escapes, [\u00xx]
    for the other control characters, the character itself otherwise. *)
Definition escape_char (c : ascii) : string :=
  let n := N_of_ascii c in
  if (n =? 8)%N then String backslash "b"
  else if (n =? 9)%N then String backslash "t"
  else if (n =? 10)%N then String backslash "n"
  else if (n =? 12)%N then String backslash "f"
  else if (n =? 13)%N then String backslash "r"
  else if (n =? 34)%N then String backslash (String dquote EmptyString)
  else if (n =? 92)%N then String backslash (String backslash EmptyString)
  else if (n <? 32)%N then
    String backslash ("u00" +:+ String (hex_digit (n / 16)) (String (hex_digit (n mod 16)) EmptyString))
  else String c EmptyString.

Fixpoint escape (s : string) : string :=
  match s with
  | EmptyString => EmptyString
  | String c s' => escape_char c +:+ escape s'
  end.

Definition quote (s : string) : string :=
  String dquote (escape s +:+ String dquote EmptyString).

(** [Array.prototype.join(",")] on already serialized parts. *)
Fixpoint join_comma (parts : list string) : string :=
  match parts with
  | [] => EmptyString
  | [p] => p
  | p :: rest => p +:+ "," +:+ join_comma rest
  end.

(** [JSON.stringify(j)] without indentation. *)
Fixpoint JSON_stringify (j : json) : string :=
  match j with
  | JNull => "null"
  | JBool true => "true"
  | JBool false => "false"
  | JNum n => pretty n
  | JStr s => quote s
  | JArr items => "[" +:+ join_comma (List.map JSON_stringify items) +:+ "]"
  | JObj fields =>
      "{" +:+ join_comma
                (List.map (fun kv => quote (fst kv) +:+ ":" +:+ JSON_stringify (snd kv))
                          fields) +:+ "}"
  end.

(** The first field named [k] of an object. *)
Fixpoint field (k : string) (fields : list (string * json)) : option json :=
  match fields with
  | [] => None
  | (k', v) :: rest => if String.eqb k k' then Some v else field k rest
  end.

(** Position by position comparison of two lists, false when the lengths
    differ. *)
Definition all2 {A B : Type} (f : A -> B -> bool) : list A -> list B -> bool :=
  fix go (xs : list A) (ys : list B) : bool :=
    match xs, ys with
    | [], [] => true
    | x :: xs', y :: ys' => f x y && go xs' ys'
    | _, _ => false
    end.

(** Deep equality of two structures, as [lodash.isEqual] or jest's
    [toEqual] decide it: arrays position by position, objects field by
    field whatever the order the fields were inserted in. *)
Fixpoint deep_equal (a b : json) : bool :=
  match a, b with
  | JNull, JNull => true
  | JBool x, JBool y => Bool.eqb x y
  | JNum x, JNum y => x =? y
  | JStr x, JStr y => String.eqb x y
  | JArr xs, JArr ys => all2 deep_equal xs ys
  | JObj fs, JObj gs =>
      (length fs =? length gs)%nat &&
      forallb (fun kv => match field (fst kv) gs with
                         | Some v' => deep_equal (snd kv) v'
                         | None => false
                         end) fs
  | _, _ => false
  end.

(** Two structures list the fields of their objects in the same order,
    position by position, all the way down. *)
Fixpoint same_field_order (a b : json) : bool :=
  match a, b with
  | JArr xs, JArr ys => all2 same_field_order xs ys
  | JObj fs, JObj gs =>
      all2 (fun kv kv' => String.eqb (fst kv) (fst kv') &&
                          same_field_order (snd kv) (snd kv')) fs gs
  | JArr _, _ | JObj _, _ | _, JArr _ | _, JObj _ => false
  | _, _ => true
  end.

(** No object has two fields of the same name (a JavaScript object cannot
    have). *)
Fixpoint distinct_keys (ks : list string) : bool :=
  match ks with
  | [] => true
  | k :: ks' => negb (existsb (String.eqb k) ks') && distinct_keys ks'
  end.

Fixpoint well_formed (a : json) : bool :=
  match a with
  | JArr xs => forallb well_formed xs
  | JObj fs =>
      distinct_keys (List.map fst fs) && forallb (fun kv => well_formed (snd kv)) fs
  | _ => true
  end.

End Json.

(** ** The Cache decorator *)

Module Memo.

Import Json.

(** What a decorated method returns ([any] in the source): a plain value,
    or, for an [async] method, the promise it created.  A promise is a heap
    object, identified by its handle; [fate] is how it settles. *)
Inductive value : Type :=
| Plain (j : json)
| Promise (handle : nat) (fate : settled json).

(** An entry of the cache: [{ valor, expira }]. *)
Record item : Type := { valor : value; expira : Z }.

(** The state a call runs in: the world of the decorated method (with the
    clock [Date.now()] reads), the [Map] the decorator closed over, and the
    log of the invocations of the original method, with receiver and
    arguments. *)
Record state (R W : Type) : Type := {
  world : W;
  cache : gmap string item;
  invoked : list (R * list json)
}.
Arguments world {R W} s.
Arguments cache {R W} s.
Arguments invoked {R W} s.

(** The state [s] when the world has become [w]: between two calls time
    passes, the [Map] stays as it is. *)
Definition later {R W : Type} (w : W) (s : state R W) : state R W :=
  {| world := w; cache := cache s; invoked := invoked s |}.

Section WithMethod.

Context {R W : Type}.

(** [Date.now()]. *)
Variable Date_now : W -> Z.

Variable ttl : Z.
Variable key : string.

(** [original.apply(this, args)]: returns or throws, and changes the
    world (time passes while it runs).  The method does not itself call
    a method decorated with the same [Map]. *)
Variable original : R -> list json -> W -> completion value * W.

(** Line 67: [`${key}:${JSON.stringify(args)}`]. *)
Definition chaveCache (args : list json) : string :=
  key +:+ ":" +:+ JSON_stringify (JArr args).

(** Lines 77-82: invoke the original method and store what it returns;
    when it throws, [cache.set] is not reached. *)
Definition compute_and_store (this : R) (args : list json) (s : state R W)
  : completion value * state R W :=
  match original this args (world s) with
  | (Return resultado, w1) =>
      (Return resultado,
       {| world := w1;
          cache := <[chaveCache args := {| valor := resultado;
                                           expira := Date_now w1 + ttl |}]> (cache s);
          invoked := invoked s ++ [(this, args)] |})
  | (Throw msg, w1) =>
      (Throw msg,
       {| world := w1; cache := cache s; invoked := invoked s ++ [(this, args)] |})
  end.

(** Lines 66-83: the function that replaces [descriptor.value]. *)
Definition descriptor_value (this : R) (args : list json) (s : state R W)
  : completion value * state R W :=
  match cache s !! chaveCache args with
  | Some item =>
      if Date_now (world s) <? expira item then (Return (valor item), s)
      else
        compute_and_store this args
          {| world := world s;
             cache := delete (chaveCache args) (cache s);
             invoked := invoked s |}
  | None => compute_and_store this args s
  end.

End WithMethod.

(** *** Decoration: which [Map] a method uses *)

(** The [Map] objects on the heap, by address. *)
Abbreviation heap := (list (gmap string item)).

(** The closure [Cache(ttl)] returns: it holds [ttl] and the address of
    the [Map] created on line 61. *)
Record decorator : Type := { d_ttl : Z; d_cache : nat }.

(** [Cache(ttl)], lines 60-63: one new empty [Map] per call. *)
Definition Cache (ttl : Z) (h : heap) : decorator * heap :=
  ({| d_ttl := ttl; d_cache := length h |}, h ++ [∅]).

(** A decorated method: what the function put into [descriptor.value]
    closes over. *)
Record method (R W : Type) : Type := {
  m_ttl : Z;
  m_cache : nat;
  m_key : string;
  m_original : R -> list json -> W -> completion value * W
}.
Arguments m_ttl {R W} m.
Arguments m_cache {R W} m.
Arguments m_key {R W} m.
Arguments m_original {R W} m.

(** Applying the decorator to the method named [key] of a class (lines
    63-84).  This happens once, when the class is defined; the descriptor
    lives on the prototype, so every instance gets this same function. *)
Definition decorate {R W : Type} (d : decorator) (key : string)
    (original : R -> list json -> W -> completion value * W) : method R W :=
  {| m_ttl := d_ttl d; m_cache := d_cache d; m_key := key; m_original := original |}.

(** Calling the decorated method on the receiver [this].  [None] when the
    method's [Map] is not on the heap. *)
Definition invoke {R W : Type} (Date_now : W -> Z) (m : method R W)
    (this : R) (args : list json) (st : heap * W * list (R * list json))
  : option (completion value * (heap * W * list (R * list json))) :=
  let '(h, w, log) := st in
  match h !! m_cache m with
  | Some c =>
      let '(r, s') :=
        descriptor_value Date_now (m_ttl m) (m_key m) (m_original m) this args
          {| world := w; cache := c; invoked := log |} in
      Some (r, (<[m_cache m := cache s']> h, world s', invoked s'))
  | None => None
  end.

End Memo.

(** ** Concrete operations

    The operations of the repository's tests and of the scenarios of the
    specification, used to run the definitions above. *)

Module Examples.

Import Json Memo.

(** [jest.fn().mockRejectedValueOnce(..).mockRejectedValueOnce(..)
    .mockResolvedValue("ok")]. *)
Definition fails_twice_then_ok (n : nat) : settled string :=
  if (n <? 2)%nat then Rejected "Error: boom" else Fulfilled "ok".

(** [jest.fn().mockRejectedValue(new Error("boom"))]. *)
Definition always_boom (n : nat) : settled string := Rejected "Error: boom".

(** [jest.fn().mockResolvedValue("Sucesso")]. *)
Definition always_ok (n : nat) : settled string := Fulfilled "Sucesso".

(** The world of the cached methods below: a clock, and the number of
    promises created so far (the next handle). *)
Record clock_world : Type := { clock : Z; promises : nat }.

(** A method that doubles its numeric argument (argument 5 returns 10)
    and throws on anything else. *)
Definition double (this : string) (args : list json) (w : clock_world)
  : completion value * clock_world :=
  match args with
  | [JNum n] => (Return (Plain (JNum (2 * n))), w)
  | _ => (Throw "TypeError: not a number", w)
  end.

(** A synchronous method that always throws. *)
Definition always_throws (this : string) (args : list json) (w : clock_world)
  : completion value * clock_world :=
  (Throw "Error: boom", w).

(** An [async] method whose promise is rejected: the call itself returns
    the promise. *)
Definition fetch_rejecting (this : string) (args : list json) (w : clock_world)
  : completion value * clock_world :=
  (Return (Promise (promises w) (Rejected "Error: boom")),
   {| clock := clock w; promises := S (promises w) |}).

(** An [async] method whose promise is fulfilled with its first argument. *)
Definition fetch_echo (this : string) (args : list json) (w : clock_world)
  : completion value * clock_world :=
  (Return (Promise (promises w) (Fulfilled (List.hd JNull args))),
   {| clock := clock w; promises := S (promises w) |}).

(** A method that returns 10 the first time it is invoked and throws from
    then on (the world counts its invocations). *)
Definition works_once (this : string) (args : list json) (w : clock_world)
  : completion value * clock_world :=
  match promises w with
  | O => (Return (Plain (JNum 10)), {| clock := clock w; promises := 1 |})
  | S _ => (Throw "Error: boom", w)
  end.

(** A method that returns a field of its receiver: here the receiver is
    the name of the instance. *)
Definition whoami (this : string) (args : list json) (w : clock_world)
  : completion value * clock_world :=
  (Return (Plain (JStr this)), w).

(** An empty cache at time [t]. *)
Definition start (t : Z) : state string clock_world :=
  {| world := {| clock := t; promises := 0 |}; cache := ∅; invoked := [] |}.

(** [{a: 1, b: 2}] and [{b: 2, a: 1}]. *)
Definition point_ab : json := JObj [("a", JNum 1); ("b", JNum 2)].
Definition point_ba : json := JObj [("b", JNum 2); ("a", JNum 1)].

End Examples.

(** ** Statements of the specification that the code does not meet

    Each is a proposition about one concrete use of the code, so that it
    can be evaluated. *)

Module SpecStatements.

Import Json Memo.

(** "If [retries < 1] or [delay < 0], retry fails fast": it throws before
    it has invoked the operation or waited. *)
Definition retry_rejects_invalid_configuration {T W : Type}
    (fn : W -> settled T * W) (sleep : Z -> W -> W) (retries delay : Z) (w : W) : Prop :=
  retries < 1 \/ delay < 0 ->
  exists msg, Retry.retry fn sleep retries delay w = Some (Throw msg, w, []).

Section WithMethod.

Context {R W : Type}.
Variable Date_now : W -> Z.
Variable ttl : Z.
Variable key : string.
Variable original : R -> list json -> W -> completion value * W.

Local Abbreviation descriptor_value := (descriptor_value Date_now ttl key original).
Local Abbreviation chaveCache := (chaveCache key).

(** An invocation fails: it throws, or it returns a promise that is
    rejected. *)
Definition failed (r : completion value) : Prop :=
  match r with
  | Throw _ => True
  | Return (Promise _ (Rejected _)) => True
  | Return _ => False
  end.

(** "If [op] fails, no entry is stored, and a subsequent identical call
    invokes the operation again." *)
Definition failure_not_cached (this : R) (args : list json) (s : state R W) : Prop :=
  failed (fst (original this args (world s))) ->
  let s1 := snd (descriptor_value this args s) in
  cache s1 !! chaveCache args = None /\
  forall w2,
    invoked (snd (descriptor_value this args (later w2 s1)))
    = invoked s1 ++ [(this, args)].

(** "Two invocations with deep-equal argument structures produce the same
    key." *)
Definition key_respects_deep_equality (args1 args2 : list json) : Prop :=
  deep_equal (JArr args1) (JArr args2) = true ->
  chaveCache args1 = chaveCache args2.

(** "A second call with deep-equal arguments before the entry expires
    returns the stored value without invoking the operation." *)
Definition deep_equal_call_hits (this : R) (args1 args2 : list json)
    (s : state R W) (w2 : W) : Prop :=
  deep_equal (JArr args1) (JArr args2) = true ->
  forall v s1,
    descriptor_value this args1 s = (Return v, s1) ->
    (forall it, cache s1 !! chaveCache args1 = Some it -> Date_now w2 < expira it) ->
    descriptor_value this args2 (later w2 s1) = (Return v, later w2 s1).

(** "A call with deep-equal arguments after the entry has expired removes
    the stale entry, invokes the operation again and stores a new entry
    that expires at now + ttl." *)
Definition deep_equal_call_refreshes (this : R) (args1 args2 : list json)
    (s : state R W) : Prop :=
  deep_equal (JArr args1) (JArr args2) = true ->
  forall it,
    cache s !! chaveCache args1 = Some it ->
    expira it <= Date_now (world s) ->
    let s' := snd (descriptor_value this args2 s) in
    invoked s' = invoked s ++ [(this, args2)] /\
    exists v, cache s' !! chaveCache args1
              = Some {| valor := v; expira := Date_now (world s') + ttl |}.

(** "A negative [ttl] fails fast": the call throws before it has invoked
    the operation. *)
Definition cache_rejects_invalid_configuration (this : R) (args : list json)
    (s : state R W) : Prop :=
  ttl < 0 ->
  exists msg, descriptor_value this args s = (Throw msg, s).

End WithMethod.

End SpecStatements.

(** ** Runs of several calls, and retry as an operation *)

Module Sequences.

Import Json Memo.

(** The time a run has spent waiting: the sum of its [setTimeout]
    delays. *)
Fixpoint waited (tr : list Retry.event) : Z :=
  match tr with
  | [] => 0
  | Retry.Wait ms :: tr' => ms + waited tr'
  | Retry.Attempt _ :: tr' => waited tr'
  end.

(** [() => retry(fn, retries, delay)] as the operation of an outer
    [retry].  The world of the outer run is the world of [fn] together
    with the trace of all the inner runs so far.  An inner run that throws
    [new Error(msg)] rejects with a reason that renders as ["Error: " +
    msg].  ([retry] always has a result; the last case is there for the
    function to be total.) *)
Definition retry_as_operation {T W : Type} (fn : W -> settled T * W)
    (sleep : Z -> W -> W) (retries delay : Z) (st : W * list Retry.event)
  : settled T * (W * list Retry.event) :=
  match Retry.retry fn sleep retries delay (fst st) with
  | Some (Return v, w', tr) => (Fulfilled v, (w', snd st ++ tr))
  | Some (Throw msg, w', tr) => (Rejected ("Error: " +:+ msg), (w', snd st ++ tr))
  | None => (Rejected EmptyString, st)
  end.

(** The outer wait acts on the world of [fn]. *)
Definition sleep_outer {W : Type} (sleep : Z -> W -> W) (ms : Z)
    (st : W * list Retry.event) : W * list Retry.event :=
  (sleep ms (fst st), snd st).

(** The decorated method called once in each of the worlds [ws], one call
    after the other on the same receiver and arguments: the results, in
    order, and the state after the last call. *)
Fixpoint call_each {R W : Type} (Date_now : W -> Z) (ttl : Z) (key : string)
    (original : R -> list json -> W -> completion value * W)
    (this : R) (args : list json) (ws : list W) (s : state R W)
  : list (completion value) * state R W :=
  match ws with
  | [] => ([], s)
  | w :: ws' =>
      let '(r, s1) := descriptor_value Date_now ttl key original this args (later w s) in
      let '(rs, s2) := call_each Date_now ttl key original this args ws' s1 in
      (r :: rs, s2)
  end.

End Sequences.

(** ** Reading a serialization back

    What is needed to tell where a serialized value ends and which value
    it was. *)

Module Syntax.

Import Json.

(** The characters a number is printed with. *)
Definition number_char (c : ascii) : bool :=
  let n := N_of_ascii c in
  ((48 <=? n) && (n <=? 57))%N || (n =? 45)%N.

Fixpoint all_chars (p : ascii -> bool) (s : string) : bool :=
  match s with
  | EmptyString => true
  | String c s' => p c && all_chars p s'
  end.

(** What can follow a serialized value: the end of the text, a comma, or
    the bracket or brace that closes the enclosing array or object. *)
Definition closes (r : string) : bool :=
  match r with
  | EmptyString => true
  | String c _ =>
      let n := N_of_ascii c in ((n =? 44) || (n =? 93) || (n =? 125))%N
  end.

(** The kind of value a serialization starts: told by its first
    character. *)
Inductive kind : Type :=
| KNull | KTrue | KFalse | KNum | KStr | KArr | KObj | KNone.

Definition kind_of_text (s : string) : kind :=
  match s with
  | EmptyString => KNone
  | String c _ =>
      let n := N_of_ascii c in
      if (n =? 110)%N then KNull
      else if (n =? 116)%N then KTrue
      else if (n =? 102)%N then KFalse
      else if (n =? 34)%N then KStr
      else if (n =? 91)%N then KArr
      else if (n =? 123)%N then KObj
      else if number_char c then KNum
      else KNone
  end.

Definition kind_of_value (j : json) : kind :=
  match j with
  | JNull => KNull
  | JBool true => KTrue
  | JBool false => KFalse
  | JNum _ => KNum
  | JStr _ => KStr
  | JArr _ => KArr
  | JObj _ => KObj
  end.

Definition hex_value (c : ascii) : option N :=
  let n := N_of_ascii c in
  if ((48 <=? n) && (n <=? 57))%N then Some (n - 48)%N
  else if ((97 <=? n) && (n <=? 102))%N then Some (n - 87)%N
  else None.

(** The character that the text of a string literal starts with, and the
    rest of the text: the inverse of [escape_char].  [None] at the closing
    quote and on a malformed escape. *)
Definition unescape_char (s : string) : option (ascii * string) :=
  match s with
  | EmptyString => None
  | String c r =>
      if (N_of_ascii c =? 34)%N then None
      else if (N_of_ascii c =? 92)%N then
        match r with
        | EmptyString => None
        | String e r' =>
            let n := N_of_ascii e in
            if (n =? 98)%N then Some (ascii_of_N 8, r')
            else if (n =? 116)%N then Some (ascii_of_N 9, r')
            else if (n =? 110)%N then Some (ascii_of_N 10, r')
            else if (n =? 102)%N then Some (ascii_of_N 12, r')
            else if (n =? 114)%N then Some (ascii_of_N 13, r')
            else if (n =? 34)%N then Some (dquote, r')
            else if (n =? 92)%N then Some (backslash, r')
            else if (n =? 117)%N then
              match r' with
              | String _ (String _ (String h (String l r''))) =>
                  match hex_value h, hex_value l with
                  | Some a, Some b => Some (ascii_of_N (16 * a + b), r'')
                  | _, _ => None
                  end
              | _ => None
              end
            else None
        end
      else Some (c, r)
  end.

(** What follows the first part in the text [join_comma] builds. *)
Definition join_rest (parts : list string) : string :=
  match parts with
  | [] => EmptyString
  | _ :: _ => "," +:+ join_comma parts
  end.

(** The text of one field of an object. *)
Definition field_text (kv : string * json) : string :=
  quote (fst kv) +:+ ":" +:+ JSON_stringify (snd kv).

(** A method name without a colon (an identifier has none). *)
Definition no_colon (s : string) : bool :=
  all_chars (fun c => negb (N_of_ascii c =? 58)%N) s.

End Syntax.

(** ** The MeasureTime and Log decorators *)

Module Wrappers.

Import Json Memo.

(** The console: which method was called, and what it was given to
    print. *)
Inductive console_method : Type :=
| console_log | console_debug | console_info | console_warn | console_error.

Inductive printed : Type :=
| Text (s : string)
| Value (j : json)
| Thrown (e : string).

(** The state an [async] wrapper runs in: the world of the method, and the
    calls made on the console so far. *)
Record run (W : Type) : Type := {
  at_world : W;
  console : list (console_method * list printed)
}.
Arguments at_world {W} r.
Arguments console {W} r.

(** [await v] on what a method returned: a value that is not a promise is
    the result; a promise gives what it is fulfilled with, or throws the
    reason it is rejected with. *)
Definition await (v : value) : settled json :=
  match v with
  | Plain j => Fulfilled j
  | Promise _ fate => fate
  end.

(** The log levels of [Log], their names and [level.toUpperCase()]. *)
Inductive LogLevel : Type := debug | info | warn | error.

Definition toUpperCase (level : LogLevel) : string :=
  match level with
  | debug => "DEBUG" | info => "INFO" | warn => "WARN" | error => "ERROR"
  end.

(** [console[level]]. *)
Definition console_of (level : LogLevel) : console_method :=
  match level with
  | debug => console_debug | info => console_info
  | warn => console_warn | error => console_error
  end.

(** [LogData]; [result] and [error] are optional. *)
Record LogData : Type := {
  method : string;
  args : list json;
  result : option json;
  error_thrown : option string;
  duration : Z;
  level : LogLevel
}.

(** [LogOptions]: every property is optional.  A formatter returns the
    message or throws. *)
Record LogOptions : Type := {
  opt_level : option LogLevel;
  opt_disabled : option bool;
  opt_formatter : option (LogData -> completion string)
}.

Section WithClock.

Context {R W : Type}.

(** [Date.now()]. *)
Variable Date_now : W -> Z.

(** The world in which an [async] function resumes after [await v]. *)
Variable resume : value -> W -> W.

(** [await original.apply(this, args)]: what the method throws is thrown
    here, and so is the reason of a rejected promise. *)
Definition call_and_await (original : R -> list json -> W -> completion value * W)
    (this : R) (arguments : list json) (w : W) : settled json * W :=
  match original this arguments w with
  | (Throw e, w1) => (Rejected e, w1)
  | (Return v, w1) => (await v, resume v w1)
  end.

(** [console.log(...)] and the like. *)
Definition print (m : console_method) (what : list printed) (s : run W) : run W :=
  {| at_world := at_world s; console := console s ++ [(m, what)] |}.

(** MeasureTime, lines 27-38 of [decorators/index.ts]: the [async]
    function put into [descriptor.value]. *)
Definition MeasureTime_value (propertyKey : string)
    (originalMethod : R -> list json -> W -> completion value * W)
    (this : R) (arguments : list json) (s : run W) : completion json * run W :=
  let s0 := print console_log
              [Text ("[" +:+ propertyKey +:+ "] argumentos recebidos:");
               Value (JArr arguments)] s in
  let start := Date_now (at_world s0) in
  match call_and_await originalMethod this arguments (at_world s0) with
  | (Rejected e, w2) => (Throw e, {| at_world := w2; console := console s0 |})
  | (Fulfilled res, w2) =>
      let elapsed := Date_now w2 - start in
      let s1 := print console_log
                  [Text ("[" +:+ propertyKey +:+ "] retornado:"); Value res]
                  {| at_world := w2; console := console s0 |} in
      let s2 := print console_log
                  [Text ("[" +:+ propertyKey +:+ "] duração: " +:+ pretty elapsed +:+ "ms")]
                  s1 in
      (Return res, s2)
  end.

(** [formatter ? formatter(logData) : message]. *)
Definition format (formatter : option (LogData -> completion string))
    (logData : LogData) (message : string) : completion string :=
  match formatter with
  | Some f => f logData
  | None => Return message
  end.

(** Log, the [catch] block (lines 142-159 of the later version of the
    decorators file), entered with what was thrown. *)
Definition Log_catch (formatter : option (LogData -> completion string))
    (propertyKey : string) (arguments : list json) (start : Z) (e : string)
    (s : run W) : completion json * run W :=
  let elapsed := Date_now (at_world s) - start in
  let logData := {| method := propertyKey; args := arguments; result := None;
                    error_thrown := Some e; duration := elapsed; level := error |} in
  match format formatter logData
          ("[ERROR] " +:+ propertyKey +:+ " falhou após " +:+ pretty elapsed +:+ "ms") with
  | Throw e' => (Throw e', s)
  | Return message => (Throw e, print console_error [Text message; Thrown e] s)
  end.

(** Log, lines 121-160: the [async] function put into
    [descriptor.value].  The [try] block holds the call of the method, the
    call of the formatter and the call of the console. *)
Definition Log_value (lvl : LogLevel)
    (formatter : option (LogData -> completion string)) (propertyKey : string)
    (metodoOriginal : R -> list json -> W -> completion value * W)
    (this : R) (arguments : list json) (s : run W) : completion json * run W :=
  let start := Date_now (at_world s) in
  match call_and_await metodoOriginal this arguments (at_world s) with
  | (Rejected e, w2) =>
      Log_catch formatter propertyKey arguments start e
        {| at_world := w2; console := console s |}
  | (Fulfilled res, w2) =>
      let s2 := {| at_world := w2; console := console s |} in
      let elapsed := Date_now w2 - start in
      let logData := {| method := propertyKey; args := arguments; result := Some res;
                        error_thrown := None; duration := elapsed; level := lvl |} in
      match format formatter logData
              ("[" +:+ toUpperCase lvl +:+ "] " +:+ propertyKey +:+ "(" +:+
               JSON_stringify (JArr arguments) +:+ ")  →  " +:+
               JSON_stringify res +:+ " (" +:+ pretty elapsed +:+ "ms)") with
      | Throw e => Log_catch formatter propertyKey arguments start e s2
      | Return message => (Return res, print (console_of lvl) [Text message] s2)
      end
  end.

(** What a decorator leaves in [descriptor.value]: the method as it was,
    or an [async] function in its place. *)
Inductive decorated : Type :=
| Kept (original : R -> list json -> W -> completion value * W)
| Replaced (wrapper : R -> list json -> run W -> completion json * run W).

(** [Log(options)] applied to a method, lines 104-119, in a process whose
    [NODE_ENV] is [node_env]: the defaults of the options, and the early
    return when logging is disabled. *)
Definition Log (node_env : option string) (options : LogOptions)
    (propertyKey : string)
    (metodoOriginal : R -> list json -> W -> completion value * W) : decorated :=
  let lvl := default info (opt_level options) in
  let disabled := default (bool_decide (node_env = Some "production"))
                    (opt_disabled options) in
  if disabled then Kept metodoOriginal
  else Replaced (Log_value lvl (opt_formatter options) propertyKey metodoOriginal).

(** [MeasureTime()] applied to a method, lines 19-41. *)
Definition MeasureTime (propertyKey : string)
    (originalMethod : R -> list json -> W -> completion value * W) : decorated :=
  Replaced (MeasureTime_value propertyKey originalMethod).

(** How the promise of an [async] function settles, for the outcome of
    [await original.apply(this, args)]. *)
Definition settle (r : settled json) : completion json :=
  match r with
  | Fulfilled j => Return j
  | Rejected e => Throw e
  end.

End WithClock.

End Wrappers.

(** ** A cached method under retry *)

Module Composition.

Import Json Memo.

(** [() => obj.method(...args)] on a method decorated with [Cache], as the
    operation of [retry]: the call, and the [await] of what it returned,
    after which the run resumes in the world [resume v w].  The world of
    the run is the state of the cache. *)
Definition cached_operation {R W : Type} (Date_now : W -> Z) (resume : value -> W -> W)
    (ttl : Z) (key : string)
    (original : R -> list json -> W -> completion value * W)
    (this : R) (args : list json) (s : state R W) : settled json * state R W :=
  match descriptor_value Date_now ttl key original this args s with
  | (Return v, s') => (Wrappers.await v, later (resume v (world s')) s')
  | (Throw e, s') => (Rejected e, s')
  end.

(** Waiting lets time pass and leaves the [Map] as it is. *)
Definition sleep_state {R W : Type} (tick : Z -> W -> W) (ms : Z) (s : state R W)
  : state R W :=
  later (tick ms (world s)) s.

End Composition.

(** ** More concrete operations *)

Module MoreExamples.

Import Json Memo Wrappers Examples.

(** Awaiting takes 7 ms. *)
Definition seven_ms (v : value) (w : clock_world) : clock_world :=
  {| clock := clock w + 7; promises := promises w |}.

(** The console is empty at time [t]. *)
Definition quiet (t : Z) : run clock_world :=
  {| at_world := {| clock := t; promises := 0 |}; console := [] |}.

(** A formatter that prints the name of the method. *)
Definition name_only (data : LogData) : completion string :=
  Return (method data).

(** A formatter that throws on the data of a successful call (it reads a
    property of [data.error], which is undefined then). *)
Definition reads_error (data : LogData) : completion string :=
  match error_thrown data with
  | Some e => Return ("failed: " +:+ e)
  | None => Throw "TypeError: Cannot read properties of undefined"
  end.

(** A formatter that always throws. *)
Definition broken (data : LogData) : completion string :=
  Throw "Error: formatter".

(** Waiting [ms] advances the clock by [ms]. *)
Definition tick_clock (ms : Z) (w : clock_world) : clock_world :=
  {| clock := clock w + ms; promises := promises w |}.

(** [jest.fn().mockRejectedValueOnce(new Error("Falha 1"))
    .mockResolvedValue("Sucesso na 2")]. *)
Definition fails_once_then_ok (n : nat) : settled string :=
  match n with
  | O => Rejected "Error: Falha 1"
  | S _ => Fulfilled "Sucesso na 2"
  end.

(** [jest.fn().mockRejectedValue(new Error("Erro Fatal"))]. *)
Definition always_fatal (n : nat) : settled string := Rejected "Error: Erro Fatal".

End MoreExamples.

(** * Properties of retry *)

Section RetryFacts.

Import Retry.

Context {T W : Type}.
Variable fn : W -> settled T * W.
Variable sleep : Z -> W -> W.
Variable delay : Z.

Local Abbreviation world_before := (world_before fn sleep delay).
Local Abbreviation attempt_result := (attempt_result fn sleep delay).
Local Abbreviation world_after := (world_after fn sleep delay).
Local Abbreviation fails := (fails fn sleep delay).
Local Abbreviation schedule := (schedule delay).

Lemma world_before_shift (j : nat) (w : W) :
  world_before (S j) w = world_before j (sleep delay (snd (fn w))).
Proof.
  induction j as [|j IH]; [reflexivity|].
  change (world_before (S (S j)) w)
    with (sleep delay (snd (fn (world_before (S j) w)))).
  now rewrite IH.
Qed.

Lemma schedule_step (n : nat) (i : Z) :
  schedule (S (S n)) i = Attempt i :: Wait delay :: schedule (S n) (i + 1).
Proof. reflexivity. Qed.

Lemma calls_schedule (n : nat) : forall i, calls (schedule n i) = n.
Proof.
  induction n as [|n IH]; intros i; [reflexivity|].
  destruct n as [|n]; [reflexivity|].
  rewrite schedule_step.
  change (S (calls (schedule (S n) (i + 1))) = S (S n)).
  now rewrite IH.
Qed.

(** A schedule never ends with a wait: its last event, if any, is an
    attempt. *)
Lemma schedule_last_attempt (d : event) (n : nat) :
  forall i, List.last (schedule (S n) i) d = Attempt (i + Z.of_nat n).
Proof.
  induction n as [|n IH]; intros i.
  - cbn. f_equal. lia.
  - rewrite schedule_step. specialize (IH (i + 1)).
    destruct n as [|n]; cbn in IH |- *; rewrite IH; f_equal; lia.
Qed.

Lemma retry_loop_inside (retries : Z) (fuel : nat) :
  forall (i : Z) (w : W),
    i < retries -> (Z.to_nat (retries - i) <= fuel)%nat ->
    exists res, retry_loop fn sleep retries delay fuel i w = Some res /\
                loop_outcome fn sleep retries delay i w res.
Proof.
  induction fuel as [|fuel IH]; intros i w Hi Hfuel; [lia|].
  cbn [retry_loop].
  destruct (Z.ltb_spec i retries) as [_|]; [|lia].
  destruct (fn w) as [[v|e] w1] eqn:Hfn.
  - eexists; split; [reflexivity|].
    exists 0%nat. cbn. rewrite Hfn. cbn.
    repeat split; [lia | intros; lia |]. left. eauto.
  - destruct (Z.eqb_spec i (retries - 1)) as [Hlast|Hmore].
    + eexists; split; [reflexivity|].
      exists 0%nat. cbn. rewrite Hfn. cbn.
      repeat split; [lia | intros; lia |]. right. exists e. repeat split; lia || reflexivity.
    + destruct (IH (i + 1) (sleep delay w1)) as ([[c w2] tr] & -> & n & Htr & Hw & Hn & Hprev & Hend);
        [lia | lia |].
      cbn in Htr, Hw, Hend.
      assert (Hw1 : sleep delay w1 = sleep delay (snd (fn w))) by now rewrite Hfn.
      eexists; split; [reflexivity|].
      exists (S n). cbn [fst snd].
      rewrite world_before_shift, <- Hw1.
      repeat split.
      * rewrite schedule_step. now rewrite Htr.
      * exact Hw.
      * lia.
      * intros [|j] Hj.
        -- exists e. cbn. now rewrite Hfn.
        -- rewrite world_before_shift, <- Hw1. apply Hprev. lia.
      * destruct Hend as [(v & -> & Hv)|(e' & -> & He' & Hi')].
        -- left. eauto.
        -- right. exists e'. repeat split; trivial. lia.
Qed.

Lemma retry_loop_outside (retries : Z) (fuel : nat) (i : Z) (w : W) :
  retries <= i ->
  retry_loop fn sleep retries delay fuel i w = Some (Throw internal_message, w, []).
Proof.
  intros Hi. destruct fuel; cbn [retry_loop];
    destruct (Z.ltb_spec i retries); trivial; lia.
Qed.

Lemma wrap_not_internal (e : string) : wrap e <> internal_message.
Proof. unfold wrap, internal_message. cbn. discriminate. Qed.

(** With at least one attempt allowed, [retry] terminates and its run is
    a [loop_outcome]. *)
Lemma retry_run (retries : Z) (w : W) :
  1 <= retries ->
  exists res, retry fn sleep retries delay w = Some res /\
              loop_outcome fn sleep retries delay 0 w res.
Proof.
  intros H. unfold retry. apply retry_loop_inside; [lia|].
  replace (retries - 0) with retries by lia. lia.
Qed.

(** A run with at least one attempt allowed makes an attempt, follows the
    schedule and does not end with the error of line 22. *)
Lemma retry_run_nonempty (retries : Z) (w : W) :
  1 <= retries ->
  exists c w' tr,
    retry fn sleep retries delay w = Some (c, w', tr) /\
    (1 <= calls tr)%nat /\
    tr = schedule (calls tr) 0 /\
    c <> Throw internal_message.
Proof.
  intros Hr.
  destruct (retry_run retries w Hr)
    as ([[c w'] tr] & Hrun & n & Htr & Hw & Hn & Hprev & Hend).
  cbn [fst snd] in *. exists c, w', tr. split; [exact Hrun|].
  assert (Hcalls : calls tr = S n) by (rewrite Htr; apply calls_schedule).
  rewrite Hcalls. repeat split; [lia | exact Htr |].
  intros ->. destruct Hend as [(v & Hc & _)|(e & Hc & _)]; [discriminate|].
  assert (Hw' : wrap e = internal_message) by congruence.
  now apply wrap_not_internal in Hw'.
Qed.

(** C4: when attempts 1..k-1 fail and attempt k <= N succeeds with [v],
    [retry] with [retries = N] returns [v] after exactly [k] invocations
    of the operation: its trace is the schedule of [k] attempts. *)
Theorem retry_returns_first_success (N : Z) (k : nat) (w : W) (v : T) :
  (1 <= k)%nat -> Z.of_nat k <= N ->
  (forall j, (1 <= j < k)%nat -> fails j w) ->
  attempt_result k w = Fulfilled v ->
  retry fn sleep N delay w = Some (Return v, world_after k w, schedule k 0) /\
  calls (schedule k 0) = k.
Proof.
  intros Hk HkN Hfail Hok. split; [|apply calls_schedule].
  destruct (retry_run N w) as ([[c w'] tr] & -> & n & Htr & Hw & Hn & Hprev & Hend); [lia|].
  cbn [fst snd] in *. unfold Retry.attempt_result, Retry.world_after in *.
  assert (n = Nat.pred k) as ->.
  { destruct (lt_eq_lt_dec n (Nat.pred k)) as [[Hlt|Heq]|Hgt]; [exfalso|exact Heq|exfalso].
    - destruct (Hfail (S n)) as [e He]; [lia|].
      unfold Retry.fails, Retry.attempt_result in He. cbn [Nat.pred] in He.
      destruct Hend as [(v' & _ & Hv')|(e' & _ & _ & Hlast)]; [congruence|lia].
    - destruct (Hprev (Nat.pred k)) as [e He]; [lia|]. congruence.
  }
  replace (S (Nat.pred k)) with k in Htr by lia.
  destruct Hend as [(v' & -> & Hv')|(e' & _ & He' & _)]; [|congruence].
  rewrite Hw, Htr. congruence.
Qed.




End RetryFacts.

(** * Properties of the Cache decorator *)

Section MemoFacts.

Import Json Memo.

Context {R W : Type}.
Variable Date_now : W -> Z.
Variable ttl : Z.
Variable key : string.
Variable original : R -> list json -> W -> completion value * W.

Local Abbreviation descriptor_value := (descriptor_value Date_now ttl key original).
Local Abbreviation compute_and_store := (compute_and_store Date_now ttl key original).
Local Abbreviation chaveCache := (chaveCache key).

(** The three ways through lines 69-75. *)
Lemma descriptor_value_hit (this : R) (args : list json) (s : state R W) (it : item) :
  cache s !! chaveCache args = Some it ->
  Date_now (world s) < expira it ->
  descriptor_value this args s = (Return (valor it), s).
Proof.
  intros Hit Hnow. unfold Memo.descriptor_value. rewrite Hit.
  destruct (Z.ltb_spec (Date_now (world s)) (expira it)); [reflexivity|lia].
Qed.

Lemma descriptor_value_stale (this : R) (args : list json) (s : state R W) (it : item) :
  cache s !! chaveCache args = Some it ->
  expira it <= Date_now (world s) ->
  descriptor_value this args s
  = compute_and_store this args
      {| world := world s; cache := delete (chaveCache args) (cache s);
         invoked := invoked s |}.
Proof.
  intros Hit Hnow. unfold Memo.descriptor_value. rewrite Hit.
  destruct (Z.ltb_spec (Date_now (world s)) (expira it)); [lia|reflexivity].
Qed.

Lemma descriptor_value_absent (this : R) (args : list json) (s : state R W) :
  cache s !! chaveCache args = None ->
  descriptor_value this args s = compute_and_store this args s.
Proof. intros Hno. unfold Memo.descriptor_value. now rewrite Hno. Qed.

(** A call that finds no unexpired entry computes, in a [Map] that has
    no entry under the key. *)
Lemma descriptor_value_miss (this : R) (args : list json) (s : state R W) :
  (forall it, cache s !! chaveCache args = Some it -> expira it <= Date_now (world s)) ->
  exists c, c !! chaveCache args = None /\
            (forall k, k <> chaveCache args -> c !! k = cache s !! k) /\
            descriptor_value this args s
            = compute_and_store this args
                {| world := world s; cache := c; invoked := invoked s |}.
Proof.
  intros Hmiss. destruct (cache s !! chaveCache args) as [it|] eqn:Hit.
  - exists (delete (chaveCache args) (cache s)). split; [apply lookup_delete_eq|].
    split; [intros k Hk; now apply lookup_delete_ne|].
    apply descriptor_value_stale with it; auto.
  - exists (cache s). split; [exact Hit|]. split; [trivial|].
    rewrite descriptor_value_absent by exact Hit. now destruct s.
Qed.

Lemma compute_and_store_returns (this : R) (args : list json) (s : state R W)
    (v : value) (w1 : W) :
  original this args (world s) = (Return v, w1) ->
  compute_and_store this args s
  = (Return v,
     {| world := w1;
        cache := <[chaveCache args := {| valor := v; expira := Date_now w1 + ttl |}]> (cache s);
        invoked := invoked s ++ [(this, args)] |}).
Proof. intros H. unfold Memo.compute_and_store. now rewrite H. Qed.

Lemma compute_and_store_throws (this : R) (args : list json) (s : state R W)
    (msg : string) (w1 : W) :
  original this args (world s) = (Throw msg, w1) ->
  compute_and_store this args s
  = (Throw msg,
     {| world := w1; cache := cache s; invoked := invoked s ++ [(this, args)] |}).
Proof. intros H. unfold Memo.compute_and_store. now rewrite H. Qed.

Lemma compute_and_store_invokes (this : R) (args : list json) (s : state R W) :
  invoked (snd (compute_and_store this args s)) = invoked s ++ [(this, args)].
Proof.
  unfold Memo.compute_and_store.
  now destruct (original this args (world s)) as [[v|msg] w1].
Qed.

(** C1, for a method that throws: when a call that finds no unexpired
    entry invokes the method and the method throws, the same error
    reaches the caller, the [Map] holds no entry under the key, the
    entries under the other keys are as they were, and the next call with
    these arguments, whenever it is made and on whichever receiver,
    invokes the method again.  A promise that an [async] method returns
    is a returned value: it is stored, also when it is rejected. *)
Theorem thrown_failure_not_cached (this this' : R) (args : list json)
    (s : state R W) :
  (forall it, cache s !! chaveCache args = Some it -> expira it <= Date_now (world s)) ->
  (forall msg w1, original this args (world s) = (Throw msg, w1) ->
     exists s1,
       descriptor_value this args s = (Throw msg, s1) /\
       world s1 = w1 /\
       invoked s1 = invoked s ++ [(this, args)] /\
       cache s1 !! chaveCache args = None /\
       (forall k, k <> chaveCache args -> cache s1 !! k = cache s !! k) /\
       forall w2,
         invoked (snd (descriptor_value this' args (later w2 s1)))
         = invoked s1 ++ [(this', args)]) /\
  (forall handle fate w1,
     original this args (world s) = (Return (Promise handle fate), w1) ->
     exists s1,
       descriptor_value this args s = (Return (Promise handle fate), s1) /\
       cache s1 !! chaveCache args
       = Some {| valor := Promise handle fate; expira := Date_now w1 + ttl |}).
Proof.
  intros Hmiss.
  destruct (descriptor_value_miss this args s Hmiss) as (c & Hc & Hother & Hrun).
  split.
  - intros msg w1 Hop. rewrite Hrun.
    rewrite (compute_and_store_throws _ _ _ msg w1) by exact Hop.
    eexists; split; [reflexivity|]. cbn [world invoked cache].
    repeat split; trivial.
    intros w2. unfold later. cbn [world invoked cache].
    rewrite descriptor_value_absent by exact Hc.
    apply compute_and_store_invokes.
  - intros handle fate w1 Hop. rewrite Hrun.
    rewrite (compute_and_store_returns _ _ _ (Promise handle fate) w1) by exact Hop.
    eexists; split; [reflexivity|]. cbn [cache]. apply lookup_insert_eq.
Qed.

(** A call that computes, followed by a call with the same key before
    the entry expires. *)
Lemma computed_then_served (this this' : R) (args args' : list json)
    (s : state R W) (v : value) (w1 w2 : W) :
  (forall it, cache s !! chaveCache args = Some it -> expira it <= Date_now (world s)) ->
  original this args (world s) = (Return v, w1) ->
  chaveCache args' = chaveCache args ->
  Date_now w2 < Date_now w1 + ttl ->
  exists s1,
    descriptor_value this args s = (Return v, s1) /\
    world s1 = w1 /\
    cache s1 !! chaveCache args = Some {| valor := v; expira := Date_now w1 + ttl |} /\
    invoked s1 = invoked s ++ [(this, args)] /\
    descriptor_value this' args' (later w2 s1) = (Return v, later w2 s1).
Proof.
  intros Hmiss Hop Hkey Hnow.
  destruct (descriptor_value_miss this args s Hmiss) as (c & Hc & Hother & Hrun).
  rewrite Hrun, (compute_and_store_returns _ _ _ v w1) by exact Hop.
  eexists; split; [reflexivity|]. cbn [cache invoked world].
  split; [reflexivity|]. split; [apply lookup_insert_eq|]. split; [reflexivity|].
  apply (descriptor_value_hit this' args' _ {| valor := v; expira := Date_now w1 + ttl |}).
  - cbn [later cache]. rewrite Hkey. apply lookup_insert_eq.
  - exact Hnow.
Qed.

(** A call that computes with [ttl <= 0] stores an entry that has expired
    on arrival: the next call with these arguments, the clock not having
    gone backwards, computes again. *)
Lemma computed_then_expired (this this' : R) (args : list json)
    (s : state R W) (v : value) (w1 w2 : W) :
  ttl <= 0 ->
  (forall it, cache s !! chaveCache args = Some it -> expira it <= Date_now (world s)) ->
  original this args (world s) = (Return v, w1) ->
  Date_now w1 <= Date_now w2 ->
  exists s1,
    descriptor_value this args s = (Return v, s1) /\
    cache s1 !! chaveCache args = Some {| valor := v; expira := Date_now w1 + ttl |} /\
    invoked s1 = invoked s ++ [(this, args)] /\
    invoked (snd (descriptor_value this' args (later w2 s1)))
    = invoked s1 ++ [(this', args)].
Proof.
  intros Httl Hmiss Hop Hclock.
  destruct (descriptor_value_miss this args s Hmiss) as (c & Hc & _ & Hrun).
  rewrite Hrun, (compute_and_store_returns _ _ _ v w1) by exact Hop.
  eexists; split; [reflexivity|]. cbn [cache invoked].
  split; [apply lookup_insert_eq|]. split; [reflexivity|].
  erewrite descriptor_value_stale.
  - now rewrite compute_and_store_invokes.
  - cbn [later cache]. apply lookup_insert_eq.
  - cbn [later world expira]. lia.
Qed.

(** X9: with [ttl = 0] every call is a miss: a call that stored what the
    method returned is followed, the clock not having gone backwards, by a
    call that invokes the method again. *)
Theorem zero_ttl_never_hits (this this' : R) (args : list json)
    (s : state R W) (v : value) (w1 w2 : W) :
  ttl = 0 ->
  (forall it, cache s !! chaveCache args = Some it -> expira it <= Date_now (world s)) ->
  original this args (world s) = (Return v, w1) ->
  Date_now w1 <= Date_now w2 ->
  exists s1,
    descriptor_value this args s = (Return v, s1) /\
    cache s1 !! chaveCache args = Some {| valor := v; expira := Date_now w1 |} /\
    invoked (snd (descriptor_value this' args (later w2 s1)))
    = invoked s ++ [(this, args); (this', args)].
Proof.
  intros Httl Hmiss Hop Hclock.
  destruct (computed_then_expired this this' args s v w1 w2) as (s1 & Hrun & Hentry & Hlog & Hnext);
    trivial; [lia|].
  exists s1. split; [exact Hrun|]. split.
  - rewrite Hentry, Httl. do 2 f_equal. lia.
  - rewrite Hnext, Hlog, <- app_assoc. reflexivity.
Qed.

(** C5, for arguments with the same key: after a call that invoked the
    method and stored what it returned, a call whose arguments have the
    same key, made while [Date.now()] is below the expiry of the entry,
    returns the very value that was stored (for an [async] method: the
    very promise) and leaves the state as it is: the method is not
    invoked again. *)
Theorem same_key_call_hits (this this' : R) (args args' : list json)
    (s : state R W) (v : value) (w1 w2 : W) :
  (forall it, cache s !! chaveCache args = Some it -> expira it <= Date_now (world s)) ->
  original this args (world s) = (Return v, w1) ->
  chaveCache args' = chaveCache args ->
  Date_now w2 < Date_now w1 + ttl ->
  exists s1,
    descriptor_value this args s = (Return v, s1) /\
    cache s1 !! chaveCache args = Some {| valor := v; expira := Date_now w1 + ttl |} /\
    invoked s1 = invoked s ++ [(this, args)] /\
    descriptor_value this' args' (later w2 s1) = (Return v, later w2 s1) /\
    invoked (later w2 s1) = invoked s ++ [(this, args)].
Proof.
  intros Hmiss Hop Hkey Hnow.
  destruct (computed_then_served this this' args args' s v w1 w2 Hmiss Hop Hkey Hnow)
    as (s1 & Hfirst & _ & Hentry & Hlog & Hsecond).
  exists s1. repeat split; trivial.
Qed.

(** C6, for arguments with the same key: a call that finds an entry
    whose expiry is not after [Date.now()] deletes it, then invokes the
    method; when the method returns, the new entry expires [ttl] after
    the time read once the method has returned; when it throws, the key
    stays without an entry. *)
Theorem expired_entry_recomputed (this : R) (args args' : list json)
    (s : state R W) (it : item) :
  chaveCache args' = chaveCache args ->
  cache s !! chaveCache args = Some it ->
  expira it <= Date_now (world s) ->
  invoked (snd (descriptor_value this args' s)) = invoked s ++ [(this, args')] /\
  (forall v w1, original this args' (world s) = (Return v, w1) ->
     descriptor_value this args' s
     = (Return v,
        {| world := w1;
           cache := <[chaveCache args := {| valor := v; expira := Date_now w1 + ttl |}]>
                      (delete (chaveCache args) (cache s));
           invoked := invoked s ++ [(this, args')] |})) /\
  (forall msg w1, original this args' (world s) = (Throw msg, w1) ->
     descriptor_value this args' s
     = (Throw msg,
        {| world := w1;
           cache := delete (chaveCache args) (cache s);
           invoked := invoked s ++ [(this, args')] |})).
Proof.
  intros Hkey Hit Hold. rewrite <- Hkey in Hit |- *.
  rewrite (descriptor_value_stale this args' s it Hit Hold).
  split; [now rewrite compute_and_store_invokes|]. split.
  - intros v w1 Hop. now rewrite (compute_and_store_returns _ _ _ v w1) by exact Hop.
  - intros msg w1 Hop. now rewrite (compute_and_store_throws _ _ _ msg w1) by exact Hop.
Qed.


End MemoFacts.

(** * Properties of the cache key *)

Section KeyFacts.

Import Json Memo.

(** Induction on a structure with the hypothesis for every item of an
    array and every field of an object. *)
Lemma json_nested_ind (P : json -> Prop) :
  P JNull ->
  (forall b, P (JBool b)) ->
  (forall n, P (JNum n)) ->
  (forall s, P (JStr s)) ->
  (forall xs, List.Forall P xs -> P (JArr xs)) ->
  (forall fs, List.Forall (fun kv => P (snd kv)) fs -> P (JObj fs)) ->
  forall j, P j.
Proof.
  intros Hnull Hbool Hnum Hstr Harr Hobj.
  fix IH 1. intros [ | b | n | s | xs | fs ].
  - exact Hnull.
  - apply Hbool.
  - apply Hnum.
  - apply Hstr.
  - apply Harr. induction xs as [|x xs IHxs]; constructor; [apply IH | exact IHxs].
  - apply Hobj. induction fs as [|[k v] fs IHfs]; constructor; [apply IH | exact IHfs].
Qed.

Lemma all2_Forall2 {A B : Type} (f : A -> B -> bool) (xs : list A) :
  forall ys, all2 f xs ys = true -> List.Forall2 (fun x y => f x y = true) xs ys.
Proof.
  induction xs as [|x xs IH]; intros [|y ys] H; cbn in H; try discriminate.
  - constructor.
  - apply andb_true_iff in H as [Hxy Hrest]. constructor; auto.
Qed.

Lemma distinct_keys_middle (k : string) (pre rest : list string) :
  distinct_keys (pre ++ k :: rest) = true ->
  existsb (String.eqb k) pre = false.
Proof.
  induction pre as [|p pre IH]; intros H; [reflexivity|].
  cbn in H. apply andb_true_iff in H as [Hp Hrest].
  cbn. rewrite (IH Hrest), orb_false_r.
  apply negb_true_iff in Hp. rewrite existsb_app in Hp.
  apply orb_false_iff in Hp as [_ Hp]. cbn in Hp.
  apply orb_false_iff in Hp as [Hp _]. now rewrite String.eqb_sym.
Qed.

Lemma field_skip (k : string) (pre rest : list (string * json)) :
  existsb (String.eqb k) (List.map fst pre) = false ->
  field k (pre ++ rest) = field k rest.
Proof.
  induction pre as [|[k' v'] pre IH]; intros H; [reflexivity|].
  cbn in H. apply orb_false_iff in H as [Hk Hpre].
  cbn. rewrite Hk. now apply IH.
Qed.

(** The fields of two objects are the same lists when they come in the
    same order and every field of the first has a deep-equal value under
    its name in the second. *)
Lemma fields_equal (gs : list (string * json)) :
  distinct_keys (List.map fst gs) = true ->
  forall fs pre rest,
    gs = pre ++ rest ->
    List.Forall2 (fun kv kv' => fst kv = fst kv' /\
                                same_field_order (snd kv) (snd kv') = true) fs rest ->
    List.Forall (fun kv' => well_formed (snd kv') = true) rest ->
    List.Forall (fun kv => exists v', field (fst kv) gs = Some v' /\
                                      deep_equal (snd kv) v' = true) fs ->
    List.Forall (fun kv => forall b, well_formed b = true ->
                                     deep_equal (snd kv) b = true ->
                                     same_field_order (snd kv) b = true ->
                                     snd kv = b) fs ->
    fs = rest.
Proof.
  intros Hdistinct fs.
  induction fs as [|[k v] fs IHfs]; intros pre rest Hgs Hpair Hwf Hval IH.
  - now inversion Hpair.
  - inversion Hpair as [|? [k' v'] ? rest' [Hk Hord] Hpair']; subst.
    cbn in Hk, Hord. subst k'.
    inversion Hwf as [|? ? Hwv Hwf']; subst. cbn in Hwv.
    inversion Hval as [|? ? (v'' & Hfield & Hdeq) Hval']; subst. cbn in Hfield, Hdeq.
    inversion IH as [|? ? IHv IH']; subst. cbn in IHv.
    rewrite field_skip in Hfield.
    + cbn in Hfield. rewrite String.eqb_refl in Hfield. injection Hfield as <-.
      rewrite (IHv v' Hwv Hdeq Hord). f_equal.
      apply (IHfs (pre ++ [(k, v')]) rest'); trivial.
      now rewrite <- app_assoc.
    + rewrite List.map_app in Hdistinct. cbn in Hdistinct.
      now apply distinct_keys_middle in Hdistinct.
Qed.

(** Structures that are deep-equal and list their fields in the same
    order are the same structure. *)
Lemma ordered_deep_equal_eq (a : json) :
  forall b, well_formed b = true -> deep_equal a b = true ->
            same_field_order a b = true -> a = b.
Proof.
  induction a as [ | x | x | x | xs IH | fs IH ] using json_nested_ind;
    intros [ | y | y | y | ys | gs ] Hwf Hdeq Hord; cbn in Hdeq; try discriminate.
  - reflexivity.
  - f_equal. now apply Bool.eqb_prop.
  - f_equal. now apply Z.eqb_eq.
  - f_equal. now apply String.eqb_eq.
  - f_equal. cbn in Hwf, Hord.
    apply all2_Forall2 in Hdeq. apply all2_Forall2 in Hord.
    revert ys Hwf Hdeq Hord.
    induction IH as [|x xs Hx _ IHxs]; intros ys Hwf Hdeq Hord.
    + now inversion Hdeq.
    + inversion Hdeq as [|? y ? ys' Hxy Hdeq']; subst.
      inversion Hord as [|? ? ? ? Hoxy Hord']; subst.
      cbn in Hwf. apply andb_true_iff in Hwf as [Hwy Hwys].
      f_equal; auto.
  - f_equal. cbn in Hwf, Hord.
    apply andb_true_iff in Hwf as [Hdistinct Hwf].
    apply andb_true_iff in Hdeq as [_ Hdeq].
    apply all2_Forall2 in Hord.
    apply (fields_equal gs Hdistinct fs [] gs eq_refl); trivial.
    + eapply List.Forall2_impl; [|exact Hord].
      intros [k v] [k' v'] H. cbn in *.
      apply andb_true_iff in H as [Hk Hv]. split; [now apply String.eqb_eq|exact Hv].
    + apply List.Forall_forall. exact (proj1 (List.forallb_forall _ _) Hwf).
    + apply List.Forall_forall.
      intros kv Hin. pose proof (proj1 (List.forallb_forall _ _) Hdeq kv Hin) as Hkv.
      cbn beta in Hkv.
      destruct (field (fst kv) gs) as [v'|]; [eauto|discriminate].
Qed.

(** C2, for arguments that list their fields in the same order: two
    argument lists that are deep-equal, and whose objects list their
    fields in the same order (no object having two fields of one name),
    have the same cache key. *)
Theorem same_order_same_key (key : string) (args1 args2 : list json) :
  well_formed (JArr args2) = true ->
  deep_equal (JArr args1) (JArr args2) = true ->
  same_field_order (JArr args1) (JArr args2) = true ->
  chaveCache key args1 = chaveCache key args2.
Proof.
  intros Hwf Hdeq Hord.
  pose proof (ordered_deep_equal_eq _ _ Hwf Hdeq Hord) as Heq.
  injection Heq as ->. reflexivity.
Qed.

End KeyFacts.

(** * Configuration values that the code does not check *)

Section Configuration.

Import Json Memo Retry.


End Configuration.

(** * The scenarios of the specification, run *)

Section Scenarios.

Import Json Memo Retry Examples SpecStatements.

(** The cache of [start t] has no entry under any key. *)
Ltac no_entry := let it := fresh "it" in let Hit := fresh "Hit" in
  intros it Hit; vm_compute in Hit; discriminate.

(** [retries = 3], [delay = 10]: the operation fails twice, then
    returns "ok". *)
Lemma retry_returns_first_success_run :
  retry (scripted fails_twice_then_ok) no_sleep 3 10 0%nat
  = Some (Return "ok", 3%nat, [Attempt 0; Wait 10; Attempt 1; Wait 10; Attempt 2]) /\
  calls [Attempt 0; Wait 10; Attempt 1; Wait 10; Attempt 2] = 3%nat.
Proof.
  apply (retry_returns_first_success (scripted fails_twice_then_ok) no_sleep 10 3 3 0%nat "ok").
  - lia.
  - lia.
  - intros j Hj. assert (j = 1 \/ j = 2)%nat as [-> | ->] by lia; eexists; reflexivity.
  - reflexivity.
Defined.




(** A method that throws: nothing is stored, the next call invokes it
    again. *)
Lemma thrown_failure_not_cached_run :
  exists s1,
    descriptor_value clock 1000 "risky" always_throws "a" [JNum 5] (start 0)
    = (Throw "Error: boom", s1) /\
    cache s1 !! chaveCache "risky" [JNum 5] = None /\
    invoked (snd (descriptor_value clock 1000 "risky" always_throws "b" [JNum 5]
                    (later {| clock := 500; promises := 0 |} s1)))
    = invoked s1 ++ [("b", [JNum 5])].
Proof.
  destruct (thrown_failure_not_cached clock 1000 "risky" always_throws "a" "b"
              [JNum 5] (start 0)) as [Hthrow _].
  - no_entry.
  - destruct (Hthrow "Error: boom" {| clock := 0; promises := 0 |} eq_refl)
      as (s1 & Hrun & _ & _ & Hnone & _ & Hnext).
    exists s1. repeat split; [exact Hrun | exact Hnone | apply Hnext].
Defined.

(** C1 as the specification states it fails for an [async] method: the
    rejected promise is stored. *)
Lemma rejected_promise_is_cached :
  ~ failure_not_cached clock 1000 "fetch" fetch_rejecting "a" [JNum 5] (start 0).
Proof.
  intros H. destruct (H I) as [Hnone _]. vm_compute in Hnone. discriminate.
Qed.

(** Arguments in the same field order. *)
Lemma same_order_same_key_run :
  chaveCache "find" [point_ab; JNum 5]
  = chaveCache "find" [JObj [("a", JNum 1); ("b", JNum 2)]; JNum 5].
Proof.
  apply (same_order_same_key "find" [point_ab; JNum 5]
           [JObj [("a", JNum 1); ("b", JNum 2)]; JNum 5]); reflexivity.
Defined.

(** C2 as the specification states it fails: [{a: 1, b: 2}] and
    [{b: 2, a: 1}] are deep-equal and have different keys. *)
Lemma field_order_changes_key :
  ~ key_respects_deep_equality "find" [point_ab] [point_ba].
Proof. intros H. specialize (H eq_refl). vm_compute in H. discriminate. Qed.

(** [ttl = 1000]: argument 5 returns 10; the call at [t = 500] returns 10
    and does not invoke the method. *)
Lemma same_key_call_hits_run :
  exists s1,
    descriptor_value clock 1000 "double" double "a" [JNum 5] (start 0)
    = (Return (Plain (JNum 10)), s1) /\
    cache s1 !! chaveCache "double" [JNum 5]
    = Some {| valor := Plain (JNum 10); expira := 0 + 1000 |} /\
    invoked s1 = [("a", [JNum 5])] /\
    descriptor_value clock 1000 "double" double "a" [JNum 5]
      (later {| clock := 500; promises := 0 |} s1)
    = (Return (Plain (JNum 10)), later {| clock := 500; promises := 0 |} s1) /\
    invoked (later {| clock := 500; promises := 0 |} s1) = [("a", [JNum 5])].
Proof.
  apply (same_key_call_hits clock 1000 "double" double "a" "a" [JNum 5] [JNum 5]
           (start 0) (Plain (JNum 10)) {| clock := 0; promises := 0 |}
           {| clock := 500; promises := 0 |}).
  - no_entry.
  - reflexivity.
  - reflexivity.
  - cbn. lia.
Defined.

(** An [async] method: the call at [t = 500] returns the promise that the
    call at [t = 0] created, with its handle, and no promise is created. *)
Example cached_promise_served_as_is :
  let s1 := snd (descriptor_value clock 1000 "fetch" fetch_echo "a" [JNum 5] (start 0)) in
  let s2 := later {| clock := 500; promises := promises (world s1) |} s1 in
  descriptor_value clock 1000 "fetch" fetch_echo "a" [JNum 5] s2
  = (Return (Promise 0 (Fulfilled (JNum 5))), s2) /\
  promises (world s2) = 1%nat /\
  invoked s2 = [("a", [JNum 5])].
Proof. vm_compute. repeat split. Qed.

(** [ttl = 0]: the call at [t = 0] is followed by a call at [t = 0] that
    invokes the method again. *)
Lemma zero_ttl_never_hits_run :
  exists s1,
    descriptor_value clock 0 "double" double "a" [JNum 5] (start 0)
    = (Return (Plain (JNum 10)), s1) /\
    cache s1 !! chaveCache "double" [JNum 5]
    = Some {| valor := Plain (JNum 10); expira := 0 |} /\
    invoked (snd (descriptor_value clock 0 "double" double "a" [JNum 5]
                    (later {| clock := 0; promises := 0 |} s1)))
    = [] ++ [("a", [JNum 5]); ("a", [JNum 5])].
Proof.
  apply (zero_ttl_never_hits clock 0 "double" double "a" "a" [JNum 5] (start 0)
           (Plain (JNum 10)) {| clock := 0; promises := 0 |}
           {| clock := 0; promises := 0 |}).
  - reflexivity.
  - no_entry.
  - reflexivity.
  - cbn. lia.
Defined.

(** C5 as the specification states it fails: the second call, with the
    fields in the other order, invokes the method again. *)
Lemma reordered_fields_miss :
  ~ deep_equal_call_hits clock 1000 "find" fetch_echo "a" [point_ab] [point_ba]
      (start 0) {| clock := 500; promises := 1 |}.
Proof.
  intros H.
  assert (Hfirst : descriptor_value clock 1000 "find" fetch_echo "a" [point_ab] (start 0)
                   = (Return (Promise 0 (Fulfilled point_ab)),
                      snd (descriptor_value clock 1000 "find" fetch_echo "a" [point_ab]
                             (start 0))))
    by (vm_compute; reflexivity).
  specialize (H eq_refl _ _ Hfirst).
  assert (Hserved : descriptor_value clock 1000 "find" fetch_echo "a" [point_ba]
                      (later {| clock := 500; promises := 1 |}
                         (snd (descriptor_value clock 1000 "find" fetch_echo "a" [point_ab]
                                 (start 0))))
                    = (Return (Promise 0 (Fulfilled point_ab)),
                       later {| clock := 500; promises := 1 |}
                         (snd (descriptor_value clock 1000 "find" fetch_echo "a" [point_ab]
                                 (start 0))))).
  { apply H. intros it Hit. vm_compute in Hit. injection Hit as <-. cbn. lia. }
  vm_compute in Hserved. discriminate.
Qed.

(** [ttl = 1000]: the call at [t = 1500] finds the entry of [t = 0]
    expired and invokes the method again. *)
Lemma expired_entry_recomputed_run :
  let s := later {| clock := 1500; promises := 0 |}
             (snd (descriptor_value clock 1000 "double" double "a" [JNum 5] (start 0))) in
  invoked (snd (descriptor_value clock 1000 "double" double "a" [JNum 5] s))
  = invoked s ++ [("a", [JNum 5])] /\
  (forall v w1, double "a" [JNum 5] (world s) = (Return v, w1) ->
     descriptor_value clock 1000 "double" double "a" [JNum 5] s
     = (Return v,
        {| world := w1;
           cache := <[chaveCache "double" [JNum 5] :=
                        {| valor := v; expira := clock w1 + 1000 |}]>
                      (delete (chaveCache "double" [JNum 5]) (cache s));
           invoked := invoked s ++ [("a", [JNum 5])] |})) /\
  (forall msg w1, double "a" [JNum 5] (world s) = (Throw msg, w1) ->
     descriptor_value clock 1000 "double" double "a" [JNum 5] s
     = (Throw msg,
        {| world := w1;
           cache := delete (chaveCache "double" [JNum 5]) (cache s);
           invoked := invoked s ++ [("a", [JNum 5])] |})).
Proof.
  apply (expired_entry_recomputed clock 1000 "double" double "a" [JNum 5] [JNum 5]
           (later {| clock := 1500; promises := 0 |}
              (snd (descriptor_value clock 1000 "double" double "a" [JNum 5] (start 0))))
           {| valor := Plain (JNum 10); expira := 1000 |}).
  - reflexivity.
  - vm_compute. reflexivity.
  - cbn. lia.
Defined.

(** C6 as the specification states it fails: the call with the fields in
    the other order leaves the expired entry where it is; and a call with
    the very same arguments, when the method throws this time, stores no
    new entry. *)
Lemma reordered_fields_keep_stale_entry :
  ~ deep_equal_call_refreshes clock 1000 "find" fetch_echo "a" [point_ab] [point_ba]
      (later {| clock := 1500; promises := 1 |}
         (snd (descriptor_value clock 1000 "find" fetch_echo "a" [point_ab] (start 0)))) /\
  ~ deep_equal_call_refreshes clock 1000 "once" works_once "a" [JNum 5] [JNum 5]
      (later {| clock := 1500; promises := 1 |}
         (snd (descriptor_value clock 1000 "once" works_once "a" [JNum 5] (start 0)))).
Proof.
  split; intros H.
  - destruct (H eq_refl {| valor := Promise 0 (Fulfilled point_ab); expira := 1000 |})
      as (_ & v & Hentry).
    + vm_compute. reflexivity.
    + cbn. lia.
    + vm_compute in Hentry. discriminate.
  - destruct (H eq_refl {| valor := Plain (JNum 10); expira := 1000 |})
      as (_ & v & Hentry).
    + vm_compute. reflexivity.
    + cbn. lia.
    + vm_compute in Hentry. discriminate.
Qed.




End Scenarios.

(** * More on the Cache decorator *)

Section MemoMore.

Import Json Memo Sequences.

Context {R W : Type}.
Variable Date_now : W -> Z.
Variable ttl : Z.
Variable key : string.
Variable original : R -> list json -> W -> completion value * W.

Local Abbreviation descriptor_value := (descriptor_value Date_now ttl key original).
Local Abbreviation compute_and_store := (compute_and_store Date_now ttl key original).
Local Abbreviation chaveCache := (chaveCache key).
Local Abbreviation call_each := (call_each Date_now ttl key original).

Lemma compute_and_store_other_keys (this : R) (args : list json) (s : state R W) (k : string) :
  k <> chaveCache args ->
  cache (snd (compute_and_store this args s)) !! k = cache s !! k.
Proof.
  intros Hk. unfold Memo.compute_and_store.
  destruct (original this args (world s)) as [[v|msg] w1]; cbn [snd cache]; [|reflexivity].
  now apply lookup_insert_ne.
Qed.


(** X2: the method is invoked at most once by a call, and it is not invoked
    exactly when the [Map] holds an entry under the key whose expiry is
    after [Date.now()]: an entry whose expiry equals [Date.now()] is
    expired.  A call that does not invoke the method changes nothing. *)
Theorem served_iff_unexpired (this : R) (args : list json) (s : state R W) :
  (invoked (snd (descriptor_value this args s)) = invoked s \/
   invoked (snd (descriptor_value this args s)) = invoked s ++ [(this, args)]) /\
  (invoked (snd (descriptor_value this args s)) = invoked s <->
   exists it, cache s !! chaveCache args = Some it /\ Date_now (world s) < expira it) /\
  (invoked (snd (descriptor_value this args s)) = invoked s ->
   snd (descriptor_value this args s) = s).
Proof.
  assert (Hgrow : forall (l : list (R * list json)) x, l ++ [x] <> l).
  { intros l x H. apply (f_equal (@length _)) in H. rewrite length_app in H. cbn in H. lia. }
  destruct (cache s !! chaveCache args) as [it|] eqn:Hit.
  - destruct (Z.lt_ge_cases (Date_now (world s)) (expira it)) as [Hfresh|Hold].
    + rewrite (descriptor_value_hit _ _ _ _ this args s it Hit Hfresh). cbn [snd].
      split; [now left|]. split; [|reflexivity]. split; [eauto|reflexivity].
    + rewrite (descriptor_value_stale _ _ _ _ this args s it Hit Hold).
      rewrite compute_and_store_invokes. cbn [invoked].
      split; [now right|]. split; [|intros H; now apply Hgrow in H].
      split; [intros H; now apply Hgrow in H|].
      intros (it' & Hit' & Hfresh). assert (it' = it) as -> by congruence. lia.
  - rewrite (descriptor_value_absent _ _ _ _ this args s Hit).
    rewrite compute_and_store_invokes.
    split; [now right|]. split; [|intros H; now apply Hgrow in H].
    split; [intros H; now apply Hgrow in H|].
    intros (it' & Hit' & _). congruence.
Qed.

(** X3: after a call, the [Map] holds an entry under the key exactly when the
    call returned, and then the entry holds the value that was returned;
    after a call that threw, the key has no entry, an expired one
    included. *)
Theorem entry_after_call (this : R) (args : list json) (s : state R W) :
  (forall v s', descriptor_value this args s = (Return v, s') ->
     exists it, cache s' !! chaveCache args = Some it /\ valor it = v) /\
  (forall msg s', descriptor_value this args s = (Throw msg, s') ->
     cache s' !! chaveCache args = None).
Proof.
  unfold Memo.descriptor_value.
  destruct (cache s !! chaveCache args) as [it|] eqn:Hit;
    [destruct (Date_now (world s) <? expira it)|].
  - split; [|discriminate]. intros v s' [= <- <-]. eauto.
  - unfold Memo.compute_and_store. cbn [world cache invoked].
    destruct (original this args (world s)) as [[v|msg] w1]; split; try discriminate.
    + intros v' s' [= <- <-]. cbn [cache]. rewrite lookup_insert_eq. eauto.
    + intros msg' s' [= <- <-]. cbn [cache]. apply lookup_delete_eq.
  - unfold Memo.compute_and_store.
    destruct (original this args (world s)) as [[v|msg] w1]; split; try discriminate.
    + intros v' s' [= <- <-]. cbn [cache]. rewrite lookup_insert_eq. eauto.
    + intros msg' s' [= <- <-]. cbn [cache]. exact Hit.
Qed.


End MemoMore.

(** * The cache key tells the arguments apart *)

Section KeyInjective.

Import Json Memo Syntax.

Lemma append_cons (x : ascii) (a b : string) : String x a +:+ b = String x (a +:+ b).
Proof. reflexivity. Qed.

Lemma append_empty_l (b : string) : EmptyString +:+ b = b.
Proof. reflexivity. Qed.

Lemma append_empty_r (a : string) : a +:+ EmptyString = a.
Proof.
  induction a as [|x a IH]; [reflexivity|]. rewrite append_cons. now rewrite IH.
Qed.

Lemma append_assoc (a b c : string) : (a +:+ b) +:+ c = a +:+ (b +:+ c).
Proof.
  induction a as [|x a IH]; [reflexivity|].
  rewrite !append_cons. now rewrite IH.
Qed.

Lemma unescape_escape_char (c : ascii) (r : string) :
  unescape_char (escape_char c +:+ r) = Some (c, r).
Proof.
  destruct c as [[] [] [] [] [] [] [] []]; reflexivity.
Qed.

(** The text of a string literal ends at the first quote that is not
    escaped. *)
Lemma escape_inj (s1 : string) :
  forall s2 r1 r2,
    escape s1 +:+ String dquote r1 = escape s2 +:+ String dquote r2 ->
    s1 = s2 /\ r1 = r2.
Proof.
  assert (Hquote : forall r, unescape_char (String dquote r) = None) by reflexivity.
  induction s1 as [|c1 s1 IH]; intros [|c2 s2] r1 r2 H; cbn [escape] in H;
    rewrite ?append_empty_l in H.
  - injection H as ->. auto.
  - rewrite append_assoc in H. apply (f_equal unescape_char) in H.
    rewrite unescape_escape_char, Hquote in H. discriminate.
  - rewrite append_assoc in H. apply (f_equal unescape_char) in H.
    rewrite unescape_escape_char, Hquote in H. discriminate.
  - rewrite !append_assoc in H. apply (f_equal unescape_char) in H.
    rewrite !unescape_escape_char in H. injection H as -> H.
    destruct (IH _ _ _ H) as [-> ->]. auto.
Qed.

Lemma quote_inj (s1 s2 r1 r2 : string) :
  quote s1 +:+ r1 = quote s2 +:+ r2 -> s1 = s2 /\ r1 = r2.
Proof.
  unfold quote. rewrite !append_cons. intros H. injection H as H.
  rewrite !append_assoc, !append_cons, !append_empty_l in H. now apply escape_inj.
Qed.

(** Two texts made of the characters of a class, each followed by a text
    that does not start with such a character. *)
Lemma class_prefix_inj (p : ascii -> bool) (a : string) :
  forall b r1 r2,
    all_chars p a = true -> all_chars p b = true ->
    (forall c r, r1 = String c r -> p c = false) ->
    (forall c r, r2 = String c r -> p c = false) ->
    a +:+ r1 = b +:+ r2 -> a = b /\ r1 = r2.
Proof.
  induction a as [|x a IH]; intros [|y b] r1 r2 Ha Hb H1 H2 H;
    rewrite ?append_cons, ?append_empty_l in H; cbn in Ha, Hb.
  - auto.
  - apply andb_true_iff in Hb as [Hy _]. rewrite (H1 _ _ H) in Hy. discriminate.
  - apply andb_true_iff in Ha as [Hx _]. symmetry in H. rewrite (H2 _ _ H) in Hx. discriminate.
  - injection H as -> H.
    apply andb_true_iff in Ha as [_ Ha]. apply andb_true_iff in Hb as [_ Hb].
    destruct (IH b r1 r2 Ha Hb H1 H2 H) as [-> ->]. auto.
Qed.

Lemma closes_not_number (r : string) (c : ascii) (r' : string) :
  closes r = true -> r = String c r' -> number_char c = false.
Proof.
  intros Hr ->. cbn in Hr. unfold number_char.
  destruct (N.eqb_spec (N_of_ascii c) 44%N) as [->|]; [reflexivity|].
  destruct (N.eqb_spec (N_of_ascii c) 93%N) as [->|]; [reflexivity|].
  destruct (N.eqb_spec (N_of_ascii c) 125%N) as [->|]; [reflexivity|discriminate].
Qed.

Lemma pretty_N_char_digit (x : N) : number_char (pretty_N_char x) = true.
Proof. unfold pretty_N_char. repeat case_match; reflexivity. Qed.

Lemma pretty_N_go_digits (x : N) :
  forall s, all_chars number_char s = true ->
            all_chars number_char (pretty_N_go x s) = true.
Proof.
  induction (N.lt_wf_0 x) as [x _ IH]; intros s Hs.
  destruct (N.eq_dec x 0%N) as [->|Hx]; [now rewrite pretty_N_go_0|].
  rewrite pretty_N_go_step by lia. apply IH.
  - apply N.div_lt; lia.
  - cbn. now rewrite pretty_N_char_digit.
Qed.

Lemma pretty_N_go_nonempty (x : N) :
  forall s, s <> EmptyString -> pretty_N_go x s <> EmptyString.
Proof.
  induction (N.lt_wf_0 x) as [x _ IH]; intros s Hs.
  destruct (N.eq_dec x 0%N) as [->|Hx]; [now rewrite pretty_N_go_0|].
  rewrite pretty_N_go_step by lia. apply IH; [apply N.div_lt; lia|discriminate].
Qed.

Lemma pretty_N_digits (x : N) :
  all_chars number_char (pretty x) = true /\ pretty x <> EmptyString.
Proof.
  unfold pretty, pretty_N. case_decide; [split; [reflexivity|discriminate]|].
  split; [now apply pretty_N_go_digits|].
  rewrite pretty_N_go_step by lia. apply pretty_N_go_nonempty. discriminate.
Qed.

Lemma pretty_Z_digits (n : Z) :
  all_chars number_char (pretty n) = true /\ pretty n <> EmptyString.
Proof.
  destruct n as [|p|p]; unfold pretty, pretty_Z.
  - split; [reflexivity|discriminate].
  - apply (pretty_N_digits (N.pos p)).
  - destruct (pretty_N_digits (N.pos p)) as [Hd Hne]. split; [|discriminate].
    rewrite append_cons, append_empty_l. cbn. exact Hd.
Qed.

Lemma number_char_kind (c : ascii) (r : string) :
  number_char c = true -> kind_of_text (String c r) = KNum.
Proof.
  destruct c as [[] [] [] [] [] [] [] []]; intros H; try discriminate H; reflexivity.
Qed.

(** The first character of a serialization tells the kind of the value. *)
Lemma kind_of_stringify (a : json) (r : string) :
  kind_of_text (JSON_stringify a +:+ r) = kind_of_value a.
Proof.
  destruct a as [ | [] | n | s | xs | fs ]; try reflexivity.
  cbn [JSON_stringify kind_of_value].
  destruct (pretty_Z_digits n) as [Hd Hne].
  destruct (pretty n) as [|c p]; [congruence|].
  rewrite append_cons. apply number_char_kind.
  cbn in Hd. now apply andb_true_iff in Hd as [Hc _].
Qed.

Lemma kind_of_quote (k r : string) : kind_of_text (quote k +:+ r) = KStr.
Proof. reflexivity. Qed.

Lemma join_comma_cons (p : string) (parts : list string) :
  join_comma (p :: parts) = p +:+ join_rest parts.
Proof.
  destruct parts as [|q parts]; cbn [join_comma join_rest].
  - induction p as [|x p IH]; [reflexivity|]. rewrite append_cons. now rewrite <- IH.
  - reflexivity.
Qed.

Lemma closes_join_rest (parts : list string) (cl : ascii) (r : string) :
  closes (String cl EmptyString) = true ->
  closes (join_rest parts +:+ String cl r) = true.
Proof. intros Hcl. destruct parts; [exact Hcl|reflexivity]. Qed.

(** The parts of a joined text can be told apart when each part can. *)
Lemma join_comma_inj {A : Type} (f : A -> string) (cl : ascii) :
  closes (String cl EmptyString) = true ->
  cl <> ","%char ->
  (forall a r, kind_of_text (f a +:+ r) <> KNone) ->
  forall xs,
    List.Forall (fun a => forall b r1 r2, closes r1 = true -> closes r2 = true ->
                                         f a +:+ r1 = f b +:+ r2 -> a = b /\ r1 = r2) xs ->
    forall ys r1 r2,
      join_comma (List.map f xs) +:+ String cl r1
      = join_comma (List.map f ys) +:+ String cl r2 ->
      xs = ys /\ r1 = r2.
Proof.
  intros Hcl Hcomma Hkind xs Hxs.
  assert (Hclose : forall r, kind_of_text (String cl r) = KNone).
  { intros r. destruct cl as [[] [] [] [] [] [] [] []]; try discriminate Hcl; reflexivity. }
  induction Hxs as [|x xs Hx _ IH]; intros [|y ys] r1 r2 H; cbn [List.map] in H.
  - injection H as ->. auto.
  - exfalso. rewrite join_comma_cons, append_assoc in H. cbn [join_comma] in H.
    rewrite append_empty_l in H. apply (f_equal kind_of_text) in H.
    rewrite Hclose in H. symmetry in H. now apply Hkind in H.
  - exfalso. rewrite join_comma_cons, append_assoc in H. cbn [join_comma] in H.
    rewrite append_empty_l in H. apply (f_equal kind_of_text) in H.
    rewrite Hclose in H. now apply Hkind in H.
  - rewrite !join_comma_cons, !append_assoc in H.
    apply Hx in H as [-> H]; [|now apply closes_join_rest..].
    destruct xs as [|x' xs], ys as [|y' ys]; cbn [List.map join_rest] in H;
      rewrite ?append_empty_l, ?append_cons in H.
    + injection H as ->. auto.
    + injection H as H _. contradiction.
    + injection H as H _. congruence.
    + injection H as H. destruct (IH (y' :: ys) r1 r2 H) as [-> ->]. auto.
Qed.

(** A serialized value, followed by what can follow a value, is the
    serialization of that value only. *)
Lemma stringify_unambiguous (a : json) :
  forall b r1 r2, closes r1 = true -> closes r2 = true ->
                  JSON_stringify a +:+ r1 = JSON_stringify b +:+ r2 ->
                  a = b /\ r1 = r2.
Proof.
  revert a.
  apply (json_nested_ind
           (fun a => forall b r1 r2, closes r1 = true -> closes r2 = true ->
                                     JSON_stringify a +:+ r1 = JSON_stringify b +:+ r2 ->
                                     a = b /\ r1 = r2));
    [ | intros x | intros x | intros x | intros xs IH | intros fs IH ];
    intros b r1 r2 H1 H2 H;
    pose proof (f_equal kind_of_text H) as Hk; rewrite !kind_of_stringify in Hk;
    try match goal with x : bool |- _ => destruct x end;
    destruct b as [ | [] | y | y | ys | gs ]; try discriminate Hk.
  - apply (inj (String.append "null")) in H. split; congruence.
  - apply (inj (String.append "true")) in H. split; congruence.
  - apply (inj (String.append "false")) in H. split; congruence.
  - cbn [JSON_stringify] in H.
    destruct (pretty_Z_digits x) as [Hx _], (pretty_Z_digits y) as [Hy _].
    apply class_prefix_inj with (p := number_char) in H as [H ->]; trivial.
    + apply (inj pretty) in H. subst. split; reflexivity.
    + intros c r Hr. exact (closes_not_number _ c r H1 Hr).
    + intros c r Hr. exact (closes_not_number _ c r H2 Hr).
  - cbn [JSON_stringify] in H. apply quote_inj in H as [-> ->]. split; reflexivity.
  - cbn [JSON_stringify] in H.
    rewrite !append_cons, !append_empty_l, !append_assoc, !append_cons, !append_empty_l in H.
    injection H as H.
    assert (Hkind : forall a r, kind_of_text (JSON_stringify a +:+ r) <> KNone).
    { intros a r Ha. rewrite kind_of_stringify in Ha.
      destruct a as [ | [] | | | | ]; discriminate. }
    assert (Hcl : "]"%char <> ","%char) by discriminate.
    destruct (join_comma_inj JSON_stringify "]"%char eq_refl Hcl Hkind xs IH ys r1 r2 H)
      as [-> ->].
    split; reflexivity.
  - cbn [JSON_stringify] in H.
    rewrite !append_cons, !append_empty_l, !append_assoc, !append_cons, !append_empty_l in H.
    injection H as H. fold field_text in H.
    assert (Hkind : forall a r, kind_of_text (field_text a +:+ r) <> KNone).
    { intros a r Ha. unfold field_text in Ha.
      rewrite append_assoc, kind_of_quote in Ha. discriminate. }
    assert (Hcl : "}"%char <> ","%char) by discriminate.
    assert (Hfields : List.Forall
              (fun a => forall b s1 s2, closes s1 = true -> closes s2 = true ->
                                        field_text a +:+ s1 = field_text b +:+ s2 ->
                                        a = b /\ s1 = s2) fs).
    { eapply List.Forall_impl; [|exact IH].
      intros [k v] Hv [k' v'] s1 s2 Hs1 Hs2 Hkv. unfold field_text in Hkv. cbn [fst snd] in *.
      rewrite !append_assoc in Hkv. apply quote_inj in Hkv as [-> Hkv].
      rewrite !append_cons, !append_empty_l in Hkv. injection Hkv as Hkv.
      destruct (Hv v' s1 s2 Hs1 Hs2 Hkv) as [-> ->]. split; reflexivity. }
    destruct (join_comma_inj field_text "}"%char eq_refl Hcl Hkind fs Hfields gs r1 r2 H)
      as [-> ->].
    split; reflexivity.
Qed.

Lemma stringify_args_inj (args1 args2 : list json) :
  JSON_stringify (JArr args1) = JSON_stringify (JArr args2) -> args1 = args2.
Proof.
  intros H.
  rewrite <- (append_empty_r (JSON_stringify (JArr args1))) in H.
  rewrite <- (append_empty_r (JSON_stringify (JArr args2))) in H.
  apply stringify_unambiguous in H as [H _]; [|reflexivity..].
  now injection H.
Qed.

Lemma no_colon_split (k1 k2 r1 r2 : string) :
  no_colon k1 = true -> no_colon k2 = true ->
  k1 +:+ ":" +:+ r1 = k2 +:+ ":" +:+ r2 -> k1 = k2 /\ r1 = r2.
Proof.
  intros H1 H2 H.
  apply class_prefix_inj with (p := fun c => negb (N_of_ascii c =? 58)%N) in H as [-> H];
    trivial.
  - apply (inj (String.append ":")) in H. auto.
  - intros c r [= <- _]. reflexivity.
  - intros c r [= <- _]. reflexivity.
Qed.


(** X8: methods of different names never share a key: when two method names
    hold no colon (identifiers hold none) and differ, their keys differ
    whatever the arguments. *)
Theorem different_methods_different_keys (key1 key2 : string) (args1 args2 : list json) :
  no_colon key1 = true -> no_colon key2 = true ->
  key1 <> key2 ->
  chaveCache key1 args1 <> chaveCache key2 args2.
Proof.
  intros H1 H2 Hne H. apply Hne. unfold chaveCache in H.
  now destruct (no_colon_split _ _ _ _ H1 H2 H).
Qed.


(** The methods [find] and [findAll]. *)
Lemma different_methods_different_keys_run :
  chaveCache "find" [JStr "All"] <> chaveCache "findAll" [].
Proof.
  apply (different_methods_different_keys "find" "findAll" [JStr "All"] []);
    [reflexivity | reflexivity | discriminate].
Defined.

End KeyInjective.

(** * Several calls, several decorators *)

Section MemoSequences.

Import Json Memo Sequences Examples.

Context {R W : Type}.
Variable Date_now : W -> Z.

(** X5: the expiry does not slide: while [Date.now()] is below the expiry of
    the entry, any number of calls in a row are served the stored value,
    the method is never invoked and the entry, its expiry included, stays
    as it is; reading an entry does not prolong it. *)
Theorem unexpired_entry_served_each_time (ttl : Z) (key : string)
    (original : R -> list json -> W -> completion value * W)
    (this : R) (args : list json) (it : item) (ws : list W) :
  forall s : state R W,
    cache s !! chaveCache key args = Some it ->
    List.Forall (fun w => Date_now w < expira it) ws ->
    fst (call_each Date_now ttl key original this args ws s)
    = List.map (fun _ => Return (valor it)) ws /\
    cache (snd (call_each Date_now ttl key original this args ws s)) = cache s /\
    invoked (snd (call_each Date_now ttl key original this args ws s)) = invoked s.
Proof.
  induction ws as [|w ws IH]; intros s Hit Hws; [repeat split|].
  inversion Hws as [|? ? Hw Hws']; subst.
  cbn [call_each].
  rewrite (descriptor_value_hit Date_now ttl key original this args (later w s) it Hit Hw).
  specialize (IH (later w s) Hit Hws').
  destruct (call_each Date_now ttl key original this args ws (later w s)) as [rs s2].
  cbn [fst snd] in *. destruct IH as (-> & -> & ->). repeat split.
Qed.


End MemoSequences.

(** * More on retry *)

Section RetryMore.

Import Retry Sequences.

Context {T W : Type}.
Variable fn : W -> settled T * W.
Variable sleep : Z -> W -> W.

Local Abbreviation world_before := (world_before fn sleep).
Local Abbreviation retry := (retry fn sleep).

(** The run in which the first [n] attempts fail and the next one
    succeeds. *)
Lemma first_success_run (delay retries : Z) (n : nat) (w : W) (v : T) :
  Z.of_nat n < retries ->
  (forall j, (j < n)%nat -> exists e, fst (fn (world_before delay j w)) = Rejected e) ->
  fst (fn (world_before delay n w)) = Fulfilled v ->
  retry retries delay w
  = Some (Return v, snd (fn (world_before delay n w)), schedule delay (S n) 0).
Proof.
  intros Hn Hfail Hok.
  destruct (retry_run fn sleep delay retries w)
    as ([[c w'] tr] & -> & n' & Htr & Hw & Hn' & Hprev & Hend); [lia|].
  cbn [fst snd] in *.
  assert (n' = n) as ->.
  { destruct (lt_eq_lt_dec n' n) as [[Hlt|Heq]|Hgt]; [exfalso|exact Heq|exfalso].
    - destruct (Hfail n' Hlt) as [e He].
      destruct Hend as [(v' & _ & Hv')|(e' & _ & _ & Hlast)]; [congruence|lia].
    - destruct (Hprev n Hgt) as [e He]. congruence. }
  destruct Hend as [(v' & -> & Hv')|(e' & _ & He' & _)]; [|congruence].
  rewrite Hw, Htr. congruence.
Qed.

(** X10: allowing more attempts does not change a run that succeeded: when
    [retry] with [retries = N] returns a value, it returns the same value,
    after the same attempts and waits, with any [retries >= N]. *)
Theorem more_retries_same_success (delay N N' : Z) (w w' : W) (v : T)
    (tr : list event) :
  N <= N' ->
  retry N delay w = Some (Return v, w', tr) ->
  retry N' delay w = Some (Return v, w', tr).
Proof.
  intros HN Hrun.
  destruct (Z.le_gt_cases N 0) as [Hle|Hgt].
  { unfold Retry.retry in Hrun. rewrite retry_loop_outside in Hrun by lia. discriminate. }
  destruct (retry_run fn sleep delay N w)
    as ([[c w1] tr1] & Hrun1 & n & Htr & Hw & Hn & Hprev & Hend); [lia|].
  rewrite Hrun in Hrun1. injection Hrun1 as <- <- <-. cbn [fst snd] in *.
  destruct Hend as [(v' & [= <-] & Hv)|(e & [=] & _)].
  rewrite (first_success_run delay N' n w v); [|lia|exact Hprev|exact Hv].
  now rewrite Hw, Htr.
Qed.

Lemma waited_schedule (delay : Z) (n : nat) :
  forall i, waited (schedule delay n i) = delay * Z.of_nat (Nat.pred n).
Proof.
  induction n as [|n IH]; intros i; [cbn; lia|].
  destruct n as [|n]; [cbn; lia|].
  rewrite schedule_step. cbn [waited]. rewrite IH. cbn [Nat.pred]. lia.
Qed.


Lemma calls_app (tr1 tr2 : list event) : calls (tr1 ++ tr2) = (calls tr1 + calls tr2)%nat.
Proof. unfold calls. now rewrite List.filter_app, length_app. Qed.

(** When every invocation fails, all the attempts allowed are made. *)
Lemma exhausted_run (delay : Z) (N : nat) (w : W) :
  (1 <= N)%nat ->
  (forall w0, exists e, fst (fn w0) = Rejected e) ->
  exists e w', retry (Z.of_nat N) delay w = Some (Throw (wrap e), w', schedule delay N 0).
Proof.
  intros HN Hfail.
  destruct (retry_run fn sleep delay (Z.of_nat N) w)
    as ([[c w'] tr] & Hrun & n & Htr & Hw & Hn & Hprev & Hend); [lia|].
  cbn [fst snd] in *.
  destruct Hend as [(v & _ & Hv)|(e & -> & He & Hlast)].
  - destruct (Hfail (world_before delay n w)) as [e He]. congruence.
  - exists e, w'. rewrite Hrun, Htr. do 3 f_equal. lia.
Qed.

End RetryMore.

Section RetryNested.

Import Retry Sequences.

Context {T W : Type}.
Variable fn : W -> settled T * W.
Variable sleep : Z -> W -> W.
Variables inner_delay outer_delay : Z.
Variable M : nat.

Local Abbreviation inner := (retry_as_operation fn sleep (Z.of_nat M) inner_delay).
Local Abbreviation outer_world := (Retry.world_before inner (sleep_outer sleep) outer_delay).

Hypothesis M_positive : (1 <= M)%nat.
Hypothesis always_fails : forall w, exists e, fst (fn w) = Rejected e.

Lemma inner_exhausted (st : W * list event) :
  exists e w',
    inner st = (Rejected ("Error: " +:+ wrap e), (w', snd st ++ schedule inner_delay M 0)).
Proof.
  unfold retry_as_operation.
  destruct (exhausted_run fn sleep inner_delay M (fst st) M_positive always_fails)
    as (e & w' & ->).
  eauto.
Qed.

Lemma inner_calls (j : nat) (st : W * list event) :
  calls (snd (snd (inner (outer_world j st)))) = (calls (snd st) + S j * M)%nat.
Proof.
  induction j as [|j IH].
  - cbn [Retry.world_before]. destruct (inner_exhausted st) as (e & w' & ->).
    cbn [snd]. rewrite calls_app, calls_schedule. lia.
  - cbn [Retry.world_before].
    destruct (inner_exhausted (sleep_outer sleep outer_delay (snd (inner (outer_world j st)))))
      as (e & w' & ->).
    cbn [snd sleep_outer]. rewrite calls_app, calls_schedule, IH. lia.
Qed.


End RetryNested.

(** * Properties of MeasureTime and Log *)

Section WrapperFacts.

Import Json Memo Wrappers.

Context {R W : Type}.
Variable Date_now : W -> Z.
Variable resume : value -> W -> W.

Local Abbreviation call_and_await := (call_and_await resume).
Local Abbreviation MeasureTime_value := (MeasureTime_value Date_now resume).
Local Abbreviation Log_value := (Log_value Date_now resume).

(** X15: MeasureTime does not change what a call gives: the [async] function
    settles as awaiting the method does, with the same result or the same
    thrown value.  It prints the arguments before the call; it prints the
    result and the elapsed time, [Date.now()] on resumption minus
    [Date.now()] before the call, only when the method succeeds: a call
    that fails prints no duration. *)
Theorem MeasureTime_transparent (propertyKey : string)
    (originalMethod : R -> list json -> W -> completion value * W)
    (this : R) (arguments : list json) (s : run W) :
  let outcome := call_and_await originalMethod this arguments (at_world s) in
  let after := MeasureTime_value propertyKey originalMethod this arguments s in
  fst after = settle (fst outcome) /\
  at_world (snd after) = snd outcome /\
  console (snd after)
  = console s
    ++ (console_log, [Text ("[" +:+ propertyKey +:+ "] argumentos recebidos:");
                      Value (JArr arguments)])
    :: match fst outcome with
       | Fulfilled res =>
           [(console_log, [Text ("[" +:+ propertyKey +:+ "] retornado:"); Value res]);
            (console_log,
             [Text ("[" +:+ propertyKey +:+ "] duração: "
                    +:+ pretty (Date_now (snd outcome) - Date_now (at_world s)) +:+ "ms")])]
       | Rejected _ => []
       end.
Proof.
  cbn zeta. unfold Wrappers.MeasureTime_value. cbn [print at_world console].
  destruct (call_and_await originalMethod this arguments (at_world s)) as [[res|e] w2];
    cbn [fst snd settle at_world console print].
  - repeat split. now rewrite <- !app_assoc.
  - repeat split.
Qed.


(** X17: the formatter runs inside the [try] block: when it throws on the data
    of a successful call, the call fails although the method returned.
    The formatter is then called again, on the data of the failure: if it
    returns, its message and what it threw go to [console.error] and what
    it threw is thrown; if it throws again, that is thrown and nothing is
    printed.  The result of the method is lost in both cases. *)
Theorem Log_formatter_failure (lvl : LogLevel) (f : LogData -> completion string)
    (propertyKey : string)
    (metodoOriginal : R -> list json -> W -> completion value * W)
    (this : R) (arguments : list json) (s : run W) (res : json) (w2 : W) (e : string) :
  call_and_await metodoOriginal this arguments (at_world s) = (Fulfilled res, w2) ->
  f {| method := propertyKey; args := arguments; result := Some res;
       error_thrown := None; duration := Date_now w2 - Date_now (at_world s);
       level := lvl |} = Throw e ->
  let again := f {| method := propertyKey; args := arguments; result := None;
                    error_thrown := Some e;
                    duration := Date_now w2 - Date_now (at_world s);
                    level := error |} in
  Log_value lvl (Some f) propertyKey metodoOriginal this arguments s
  = match again with
    | Return message =>
        (Throw e, {| at_world := w2;
                     console := console s ++ [(console_error, [Text message; Thrown e])] |})
    | Throw e' => (Throw e', {| at_world := w2; console := console s |})
    end.
Proof.
  intros Hcall Hthrow. cbn zeta. unfold Wrappers.Log_value.
  rewrite Hcall. cbn [format]. rewrite Hthrow.
  unfold Log_catch. cbn [format at_world].
  destruct (f _) as [message|e']; reflexivity.
Qed.


(** Log replaces the method exactly when logging is not disabled: when
    [options.disabled] is [false], or when it is absent and [NODE_ENV] is
    not ["production"].  Otherwise the method is left as it is: its calls
    print nothing and a synchronous method stays synchronous. *)
Lemma Log_disabled (node_env : option string) (options : LogOptions)
    (propertyKey : string)
    (metodoOriginal : R -> list json -> W -> completion value * W) :
  (opt_disabled options = Some false \/
   (opt_disabled options = None /\ node_env <> Some "production") ->
   Log Date_now resume node_env options propertyKey metodoOriginal
   = Replaced (Log_value (default info (opt_level options)) (opt_formatter options)
                 propertyKey metodoOriginal)) /\
  (opt_disabled options = Some true \/
   (opt_disabled options = None /\ node_env = Some "production") ->
   Log Date_now resume node_env options propertyKey metodoOriginal = Kept metodoOriginal).
Proof.
  unfold Log. split.
  - intros [->|[-> Henv]]; cbn [default]; [reflexivity|].
    now rewrite bool_decide_eq_false_2.
  - intros [->|[-> Henv]]; cbn [default]; [reflexivity|].
    now rewrite bool_decide_eq_true_2.
Qed.

End WrapperFacts.

(** * A cached method under retry *)

Section RetryOfCached.

Import Json Memo Retry Composition.

Context {R W : Type}.
Variable Date_now : W -> Z.
Variable resume : value -> W -> W.
Variable tick : Z -> W -> W.
Variable ttl : Z.
Variable key : string.
Variable original : R -> list json -> W -> completion value * W.
Variable this : R.
Variable args : list json.
Variable delay : Z.

Local Abbreviation op := (cached_operation Date_now resume ttl key original this args).
Local Abbreviation nap := (sleep_state tick).
Local Abbreviation before := (Retry.world_before op nap delay).

(** The run in which all of the first [N] attempts fail. *)
Lemma all_fail_run {T V : Type} (fn : V -> settled T * V) (sleep : Z -> V -> V)
    (N : nat) (w : V) (e : string) :
  (1 <= N)%nat ->
  (forall j, (j < N)%nat ->
     exists e', fst (fn (Retry.world_before fn sleep delay j w)) = Rejected e') ->
  fst (fn (Retry.world_before fn sleep delay (Nat.pred N) w)) = Rejected e ->
  retry fn sleep (Z.of_nat N) delay w
  = Some (Throw (wrap e), snd (fn (Retry.world_before fn sleep delay (Nat.pred N) w)),
          schedule delay N 0).
Proof.
  intros HN Hfail Hlast.
  destruct (retry_run fn sleep delay (Z.of_nat N) w)
    as ([[c w'] tr] & -> & n & Htr & Hw & Hn & Hprev & Hend); [lia|].
  cbn [fst snd] in *.
  destruct Hend as [(v' & _ & Hv')|(e' & -> & He' & Hi)].
  - exfalso. destruct (Hfail n) as [e' He']; [lia|]. congruence.
  - assert (n = Nat.pred N) as -> by lia.
    replace (S (Nat.pred N)) with N in Htr by lia.
    rewrite Hw, Htr. congruence.
Qed.

Variable s0 : state R W.
Variable handle : nat.
Variable reason : string.
Variable w1 : W.

Hypothesis no_entry_yet :
  forall it, cache s0 !! chaveCache key args = Some it -> expira it <= Date_now (world s0).
Hypothesis rejects :
  original this args (world s0) = (Return (Promise handle (Rejected reason)), w1).

(** The state after the first attempt. *)
Lemma first_attempt :
  exists s1,
    op s0 = (Rejected reason, s1) /\
    cache s1 !! chaveCache key args
    = Some {| valor := Promise handle (Rejected reason); expira := Date_now w1 + ttl |} /\
    invoked s1 = invoked s0 ++ [(this, args)].
Proof.
  unfold cached_operation.
  destruct (descriptor_value_miss Date_now ttl key original this args s0 no_entry_yet)
    as (c & Hc & _ & ->).
  rewrite (compute_and_store_returns Date_now ttl key original this args
             {| world := world s0; cache := c; invoked := invoked s0 |} _ w1 rejects).
  eexists. split; [reflexivity|]. cbn [later world cache invoked].
  split; [apply lookup_insert_eq|reflexivity].
Qed.

(** An attempt that starts before the entry expires is served the rejected
    promise and leaves the [Map] and the log as they are. *)
Lemma served_attempt (s1 s : state R W) :
  cache s1 !! chaveCache key args
  = Some {| valor := Promise handle (Rejected reason); expira := Date_now w1 + ttl |} ->
  cache s = cache s1 ->
  Date_now (world s) < Date_now w1 + ttl ->
  fst (op s) = Rejected reason /\
  cache (snd (op s)) = cache s1 /\
  invoked (snd (op s)) = invoked s.
Proof.
  intros Hentry Hc Hnow. unfold cached_operation.
  rewrite (descriptor_value_hit Date_now ttl key original this args s
             {| valor := Promise handle (Rejected reason); expira := Date_now w1 + ttl |});
    [|now rewrite Hc|exact Hnow].
  cbn [fst snd valor Wrappers.await later cache invoked]. auto.
Qed.

Lemma nap_cache (ms : Z) (s : state R W) : cache (nap ms s) = cache s.
Proof. reflexivity. Qed.

Lemma nap_invoked (ms : Z) (s : state R W) : invoked (nap ms s) = invoked s.
Proof. reflexivity. Qed.

Variable N : nat.

(** Every attempt after the first starts before the entry expires. *)
Hypothesis in_time :
  forall j, (1 <= j < N)%nat -> Date_now (world (before j s0)) < Date_now w1 + ttl.

(** Before each later attempt the [Map] and the log are those the first
    attempt left. *)
Lemma later_attempts (j : nat) :
  (S j < N)%nat ->
  cache (before (S j) s0) = cache (snd (op s0)) /\
  invoked (before (S j) s0) = invoked (snd (op s0)).
Proof.
  destruct first_attempt as (s1 & Hop & Hentry & Hlog).
  rewrite Hop. cbn [snd].
  induction j as [|j IH]; intros Hj.
  - change (before 1 s0) with (nap delay (snd (op s0))). rewrite Hop. auto.
  - destruct IH as [Hc Hl]; [lia|].
    change (before (S (S j)) s0) with (nap delay (snd (op (before (S j) s0)))).
    destruct (served_attempt s1 (before (S j) s0) Hentry Hc) as (_ & Hc' & Hl');
      [apply in_time; lia|].
    rewrite nap_cache, nap_invoked.
    split; [exact Hc'|]. now rewrite Hl'.
Qed.

(** X13: retry cannot recover a failure that Cache has stored: when the
    decorated method is [async] and its promise is rejected, every attempt
    that starts before the entry expires is served that same promise; if
    all of the [N] attempts do, the method is invoked once and retry throws
    the wrapped reason. *)
Theorem retry_of_cached_rejection :
  (1 <= N)%nat ->
  exists s',
    retry op nap (Z.of_nat N) delay s0
    = Some (Throw (wrap reason), s', schedule delay N 0) /\
    invoked s' = invoked s0 ++ [(this, args)].
Proof.
  intros HN.
  destruct first_attempt as (s1 & Hop & Hentry & Hlog).
  assert (Hlater : forall j, (S j < N)%nat ->
            fst (op (before (S j) s0)) = Rejected reason /\
            invoked (snd (op (before (S j) s0))) = invoked s1).
  { intros j Hj. destruct (later_attempts j Hj) as [Hc Hl]. rewrite Hop in Hc, Hl.
    destruct (served_attempt s1 (before (S j) s0) Hentry Hc) as (Hr & _ & Hl');
      [apply in_time; lia|].
    split; [exact Hr|]. now rewrite Hl'. }
  assert (Hall : forall j, (j < N)%nat -> fst (op (before j s0)) = Rejected reason).
  { intros [|j] Hj; [cbn [Retry.world_before]; now rewrite Hop|]. now apply Hlater. }
  rewrite (all_fail_run op nap N s0 reason HN).
  - eexists. split; [reflexivity|].
    destruct N as [|[|n]]; [lia| |]; cbn [Nat.pred].
    + cbn [Retry.world_before]. rewrite Hop. exact Hlog.
    + destruct (Hlater n) as [_ ->]; [lia|]. exact Hlog.
  - intros j Hj. eexists. now apply Hall.
  - apply Hall. lia.
Qed.

End RetryOfCached.

Section RetryOfThrowing.

Import Json Memo Retry Composition.

Context {R W : Type}.
Variable Date_now : W -> Z.
Variable resume : value -> W -> W.
Variable tick : Z -> W -> W.
Variable ttl : Z.
Variable key : string.
Variable original : R -> list json -> W -> completion value * W.
Variable this : R.
Variable args : list json.
Variable delay : Z.

Local Abbreviation op := (cached_operation Date_now resume ttl key original this args).
Local Abbreviation nap := (sleep_state tick).
Local Abbreviation before := (Retry.world_before op nap delay).

Variable s0 : state R W.

Hypothesis no_entry_yet :
  forall it, cache s0 !! chaveCache key args = Some it -> expira it <= Date_now (world s0).
Hypothesis always_throws :
  forall w, exists msg w', original this args w = (Throw msg, w').

(** An attempt on a state without an unexpired entry invokes the method,
    which throws, and leaves the key without an entry. *)
Lemma throwing_attempt (s : state R W) :
  (forall it, cache s !! chaveCache key args = Some it -> expira it <= Date_now (world s)) ->
  exists msg s',
    op s = (Rejected msg, s') /\
    cache s' !! chaveCache key args = None /\
    invoked s' = invoked s ++ [(this, args)].
Proof.
  intros Hmiss. unfold cached_operation.
  destruct (descriptor_value_miss Date_now ttl key original this args s Hmiss)
    as (c & Hc & _ & ->).
  destruct (always_throws (world s)) as (msg & w' & Hthrow).
  rewrite (compute_and_store_throws Date_now ttl key original this args
             {| world := world s; cache := c; invoked := invoked s |} msg w' Hthrow).
  exists msg. eexists. split; [reflexivity|]. cbn [cache invoked]. auto.
Qed.

Lemma attempts_so_far (j : nat) :
  (forall it, cache (before j s0) !! chaveCache key args = Some it ->
              expira it <= Date_now (world (before j s0))) /\
  invoked (before j s0) = invoked s0 ++ List.repeat (this, args) j.
Proof.
  induction j as [|j [Hmiss Hlog]].
  - split; [exact no_entry_yet|]. cbn. now rewrite app_nil_r.
  - change (before (S j) s0) with (nap delay (snd (op (before j s0)))).
    destruct (throwing_attempt (before j s0) Hmiss) as (msg & s' & -> & Hnone & Hinv).
    cbn [snd]. unfold sleep_state, later at 1 2 3. cbn [cache invoked world].
    split.
    + intros it Hit. rewrite Hnone in Hit. discriminate.
    + rewrite Hinv, Hlog, <- app_assoc. f_equal.
      change [(this, args)] with (List.repeat (this, args) 1).
      rewrite <- List.repeat_app. f_equal. lia.
Qed.


End RetryOfThrowing.

(** * More scenarios *)

Section MoreScenarios.

Import Json Memo Retry Sequences Wrappers Composition Examples MoreExamples.



(** Three calls at 100, 500 and 999 ms on an entry that expires at
    1000 ms. *)
Lemma unexpired_entry_served_each_time_run :
  let s1 := snd (descriptor_value clock 1000 "double" double "a" [JNum 5] (start 0)) in
  let ws := [ {| clock := 100; promises := 0 |}; {| clock := 500; promises := 0 |};
              {| clock := 999; promises := 0 |} ] in
  fst (call_each clock 1000 "double" double "a" [JNum 5] ws s1)
  = List.map (fun _ => Return (Plain (JNum 10))) ws /\
  cache (snd (call_each clock 1000 "double" double "a" [JNum 5] ws s1)) = cache s1 /\
  invoked (snd (call_each clock 1000 "double" double "a" [JNum 5] ws s1)) = invoked s1.
Proof.
  apply (unexpired_entry_served_each_time clock 1000 "double" double "a" [JNum 5]
           {| valor := Plain (JNum 10); expira := 1000 |}).
  - vm_compute. reflexivity.
  - repeat constructor.
Defined.


(** Ten attempts allowed instead of three: the third still succeeds. *)
Lemma more_retries_same_success_run :
  retry (scripted fails_twice_then_ok) no_sleep 10 10 0%nat
  = Some (Return "ok", 3%nat, [Attempt 0; Wait 10; Attempt 1; Wait 10; Attempt 2]).
Proof.
  apply (more_retries_same_success (scripted fails_twice_then_ok) no_sleep 10 3 10).
  - lia.
  - reflexivity.
Defined.



(** A formatter that reads [data.error] on a successful call. *)
Lemma Log_formatter_failure_run :
  Log_value clock seven_ms info (Some reads_error) "double" double "a" [JNum 5] (quiet 0)
  = (Throw "TypeError: Cannot read properties of undefined",
     {| at_world := {| clock := 7; promises := 0 |};
        console := [] ++ [(console_error,
                     [Text "failed: TypeError: Cannot read properties of undefined";
                      Thrown "TypeError: Cannot read properties of undefined"])] |}).
Proof.
  apply (Log_formatter_failure clock seven_ms info reads_error "double" double "a" [JNum 5]
           (quiet 0) (JNum 10) {| clock := 7; promises := 0 |}
           "TypeError: Cannot read properties of undefined").
  - reflexivity.
  - reflexivity.
Defined.


(** Three attempts, 10 ms apart, on a cached [async] method that rejects;
    an [await] takes 7 ms: one invocation. *)
Lemma retry_of_cached_rejection_run :
  exists s',
    retry (cached_operation clock seven_ms 1000 "fetch" fetch_rejecting "a" [JNum 5])
      (sleep_state tick_clock) (Z.of_nat 3) 10 (start 0)
    = Some (Throw (wrap "Error: boom"), s', schedule 10 3 0) /\
    invoked s' = invoked (start 0) ++ [("a", [JNum 5])].
Proof.
  apply (retry_of_cached_rejection clock seven_ms tick_clock 1000 "fetch" fetch_rejecting
           "a" [JNum 5] 10 (start 0) 0 "Error: boom" {| clock := 0; promises := 1 |}).
  - intros it Hit. vm_compute in Hit. discriminate.
  - reflexivity.
  - intros j Hj. assert (j = 1 \/ j = 2)%nat as [-> | ->] by lia; vm_compute; reflexivity.
  - lia.
Defined.


(** The three tests of [retry.spec.ts]: the value at the first attempt,
    the value at the second attempt, and the error after three failed
    attempts, with the number of calls of the mock. *)
Example retry_spec_first_attempt :
  retry (scripted always_ok) no_sleep 3 10 0%nat
  = Some (Return "Sucesso", 1%nat, [Attempt 0]).
Proof. reflexivity. Qed.

Example retry_spec_second_attempt :
  retry (scripted fails_once_then_ok) no_sleep 3 10 0%nat
  = Some (Return "Sucesso na 2", 2%nat, [Attempt 0; Wait 10; Attempt 1]).
Proof. reflexivity. Qed.

Example retry_spec_all_fail :
  retry (scripted always_fatal) no_sleep 3 10 0%nat
  = Some (Throw "[ERROR]: Error: Erro Fatal", 3%nat,
          [Attempt 0; Wait 10; Attempt 1; Wait 10; Attempt 2]).
Proof. reflexivity. Qed.

End MoreScenarios.
